(** * dotenv-enhanced: the layering and merge-precedence engine of [mod.ts]

    A shallow embedding of [src/mod.ts]: the single-file loaders [loadSync]
    and [load], and the layered loaders [loadEnvSync] and [mod], over an
    explicit model of the process environment table, the module-level
    tracking set [SET_VARIABLES], the console and the file-read primitives. *)

From stdpp Require Import gmap strings list fin_maps.

Set Default Proof Using "Type".
Local Open Scope string_scope.
Local Open Scope list_scope.
Local Open Scope stdpp_scope.

(** ** Data model *)

(** What a [throw] carries.  The loaders only ever ask one question of a
    caught value: [e instanceof Deno.errors.NotFound]. *)
Inductive error : Type :=
  | NotFound (msg : string)
  | OtherError (name msg : string).

Definition is_NotFound (e : error) : bool :=
  match e with
  | NotFound _ => true
  | OtherError _ _ => false
  end.

(** [string | URL]: what the file-read primitives accept. *)
Inductive filepath : Type :=
  | PathString (s : string)
  | PathURL (href : string).

Global Instance filepath_eq_dec : EqDecision filepath.
Proof. solve_decision. Defined.

(** [Record<string, string>] as the list [Object.entries] enumerates. *)
Abbreviation Config := (list (string * string)).

(** [Object.keys]. *)
Definition keys (conf : Config) : list string := conf.*1.

(** The value an object holds for a key. *)
Fixpoint conf_get (conf : Config) (key : string) : option string :=
  match conf with
  | [] => None
  | (k, v) :: rest => if decide (k = key) then Some v else conf_get rest key
  end.

(** [envPath?: string | URL | null]; [export?: boolean].  An absent field
    (or an explicit [undefined]) is [None]. *)
Inductive EnvPath : Type :=
  | EnvPathString (s : string)
  | EnvPathURL (href : string)
  | EnvPathNull.

Record LoadOptions : Type := mkLoadOptions {
  envPath : option EnvPath;
  export : option bool
}.

(** Everything the module reads or mutates besides the files themselves:
    [Deno.env], the module constant [SET_VARIABLES] (a JS [Set], kept in
    insertion order), the lines given to [console.log] (oldest first), and
    the paths handed to a file-read primitive (oldest first). *)
Record world : Type := mkWorld {
  Deno_env : gmap string string;
  SET_VARIABLES : list string;
  console : list string;
  fs_reads : list filepath
}.

(** [const SET_VARIABLES = new Set<string>()] and nothing logged or read. *)
Definition process_start (e : gmap string string) : world :=
  mkWorld e [] [] [].

Definition with_env (f : gmap string string → gmap string string) (w : world) : world :=
  mkWorld (f (Deno_env w)) (SET_VARIABLES w) (console w) (fs_reads w).

Definition with_set (f : list string → list string) (w : world) : world :=
  mkWorld (Deno_env w) (f (SET_VARIABLES w)) (console w) (fs_reads w).

Definition with_console (f : list string → list string) (w : world) : world :=
  mkWorld (Deno_env w) (SET_VARIABLES w) (f (console w)) (fs_reads w).

Definition with_reads (f : list filepath → list filepath) (w : world) : world :=
  mkWorld (Deno_env w) (SET_VARIABLES w) (console w) (f (fs_reads w)).

(** ** JavaScript values the code tests for truthiness *)

(** [!!s] for a string. *)
Definition truthy_string (s : string) : bool :=
  if decide (s = "") then false else true.

(** [!!x] for [x : string | undefined], the result of [Deno.env.get]. *)
Definition truthy (x : option string) : bool :=
  match x with
  | Some s => truthy_string s
  | None => false
  end.

(** [Set.prototype.add]: a new member goes last, a member stays in place. *)
Definition Set_add (key : string) (s : list string) : list string :=
  if decide (key ∈ s) then s else s ++ [key].

(** [Set.prototype.has]. *)
Definition Set_has (key : string) (s : list string) : bool :=
  bool_decide (key ∈ s).

(** [Array.prototype.join]. *)
Fixpoint join (sep : string) (l : list string) : string :=
  match l with
  | [] => ""
  | [x] => x
  | x :: rest => x +:+ sep +:+ join sep rest
  end.

(** ** Effects: state that survives a [throw] *)

Definition M (A : Type) : Type := world → (error + A) * world.

Definition ret {A} (a : A) : M A := λ w, (inr a, w).

Definition throw {A} (e : error) : M A := λ w, (inl e, w).

Definition bind {A B} (c : M A) (k : A → M B) : M B :=
  λ w, match c w with
       | (inr a, w') => k a w'
       | (inl e, w') => (inl e, w')
       end.

(** [try { c } catch (e) { h e }]. *)
Definition try_catch {A} (c : M A) (h : error → M A) : M A :=
  λ w, match c w with
       | (inr a, w') => (inr a, w')
       | (inl e, w') => h e w'
       end.

(** A call that either returns or throws, without touching the world. *)
Definition lift {A} (r : error + A) : M A := λ w, (r, w).

Declare Scope js_scope.
Delimit Scope js_scope with js.
Notation "x <- c ;; k" := (bind c (λ x, k))
  (at level 20, c at level 99, k at level 200, only parsing) : js_scope.
Notation "c ;; k" := (bind c (λ _, k))
  (at level 100, k at level 200, only parsing, right associativity) : js_scope.
Local Open Scope js_scope.

(** [for (const x of l) body]. *)
Fixpoint for_of {A} (l : list A) (body : A → M unit) : M unit :=
  match l with
  | [] => ret tt
  | x :: rest => body x ;; for_of rest body
  end.

(** What the runtime's [Deno.env] refuses: [get] and [set] throw a
    [TypeError] for a name that is empty or holds ['='] or NUL, and [set]
    throws one for a value that holds NUL.  Only the kind of the error and
    which argument caused it matter below; the message is indicative. *)
Fixpoint has_char (c : Ascii.ascii) (s : string) : bool :=
  match s with
  | EmptyString => false
  | String a rest => Ascii.eqb a c || has_char c rest
  end.

Definition NUL : Ascii.ascii := Ascii.ascii_of_nat 0.

Definition TypeError (msg : string) : error := OtherError "TypeError" msg.

Definition env_name_error (key : string) : option error :=
  if decide (key = "") then Some (TypeError "Key is an empty string.")
  else if has_char (Ascii.ascii_of_nat 61) key || has_char NUL key
       then Some (TypeError ("Key contains invalid characters: " +:+ key))
       else None.

Definition env_value_error (value : string) : option error :=
  if has_char NUL value
  then Some (TypeError ("Value contains invalid characters: " +:+ value))
  else None.

(** The error of [Deno.env.set(key, value)], if any: the name is checked
    first. *)
Definition env_set_error (key value : string) : option error :=
  match env_name_error key with
  | Some e => Some e
  | None => env_value_error value
  end.

(** [Deno.env.get], [Deno.env.set], [SET_VARIABLES.has], [SET_VARIABLES.add],
    [Array.from(SET_VARIABLES)], [console.log].  Variable names are compared
    exactly, and the process holds the permission to use its environment. *)
Definition env_get (key : string) : M (option string) :=
  λ w, match env_name_error key with
       | Some e => (inl e, w)
       | None => (inr (Deno_env w !! key), w)
       end.

Definition env_set (key value : string) : M unit :=
  λ w, match env_set_error key value with
       | Some e => (inl e, w)
       | None => (inr tt, with_env <[key := value]> w)
       end.

Definition set_has (key : string) : M bool :=
  λ w, (inr (Set_has key (SET_VARIABLES w)), w).

Definition set_add (key : string) : M unit :=
  λ w, (inr tt, with_set (Set_add key) w).

Definition set_to_array : M (list string) :=
  λ w, (inr (SET_VARIABLES w), w).

Definition console_log (line : string) : M unit :=
  λ w, (inr tt, with_console (λ out, out ++ [line]) w).

(** ** The program *)

Section Program.

(** The capabilities [mod.ts] imports: the two whole-file reads of the
    runtime and [parse] of [@std/dotenv]. *)
Variable readTextFileSync : filepath → error + string.
Variable readTextFile : filepath → error + string.
Variable parse : string → error + Config.

Definition Deno_readTextFileSync (p : filepath) : M string :=
  λ w, (readTextFileSync p, with_reads (λ r, r ++ [p]) w).

Definition Deno_readTextFile (p : filepath) : M string :=
  λ w, (readTextFile p, with_reads (λ r, r ++ [p]) w).

Definition parseFileSync (p : filepath) : M Config :=
  try_catch
    (text <- Deno_readTextFileSync p ;; lift (parse text))
    (λ e, if is_NotFound e then ret [] else throw e).

Definition parseFile (p : filepath) : M Config :=
  try_catch
    (text <- Deno_readTextFile p ;; lift (parse text))
    (λ e, if is_NotFound e then ret [] else throw e).

(** [const { envPath = ".env", export: _export = false } = options]. *)
Definition envPath_of (options : LoadOptions) : EnvPath :=
  default (EnvPathString ".env") (envPath options).

Definition export_of (options : LoadOptions) : bool :=
  default false (export options).

(** [envPath ? parseFileSync(envPath) : {}]: [null] and the empty string
    are falsy, a [URL] object never is. *)
Definition resolved_path (p : EnvPath) : option filepath :=
  match p with
  | EnvPathString s => if truthy_string s then Some (PathString s) else None
  | EnvPathURL u => Some (PathURL u)
  | EnvPathNull => None
  end.

(** The body of the export loop shared by [loadSync] and [load]. *)
Definition export_entry (entry : string * string) : M unit :=
  let '(key, value) := entry in
  cur <- env_get key ;;
  match cur with
  | Some _ => ret tt
  | None => env_set key value
  end.

Definition loadSync (options : LoadOptions) : M Config :=
  let envPath := envPath_of options in
  let _export := export_of options in
  conf <- match resolved_path envPath with
          | Some p => parseFileSync p
          | None => ret []
          end ;;
  (if _export then for_of conf export_entry else ret tt) ;;
  ret conf.

Definition load (options : LoadOptions) : M Config :=
  let envPath := envPath_of options in
  let _export := export_of options in
  conf <- match resolved_path envPath with
          | Some p => parseFile p
          | None => ret []
          end ;;
  (if _export then for_of conf export_entry else ret tt) ;;
  ret conf.

(** The body of the overlay loop shared by [loadEnvSync] and [mod].  The
    [||] does not evaluate [Deno.env.get(key)] when the set has the key. *)
Definition overlay_entry (entry : string * string) : M unit :=
  let '(key, value) := entry in
  has <- set_has key ;;
  test <- (if has then ret true
           else cur <- env_get key ;; ret (negb (truthy cur))) ;;
  if (test : bool)
  then env_set key value ;; set_add key
  else ret tt.

Definition summary (tracked : list string) : string :=
  "Hydrated environment variables: " +:+ join ", " tracked.

Definition loadEnvSync : M unit :=
  nodeEnv <- env_get "NODE_ENV" ;;
  baseConfig <- loadSync (mkLoadOptions None (Some true)) ;;
  for_of (keys baseConfig) set_add ;;
  match nodeEnv with
  | Some n =>
      if truthy_string n then
        envConfig <- loadSync (mkLoadOptions (Some (EnvPathString (".env." +:+ n))) None) ;;
        for_of envConfig overlay_entry
      else ret tt
  | None => ret tt
  end ;;
  tracked <- set_to_array ;;
  console_log (summary tracked).

(** [mod]; the name is a token of the arithmetic notations here. *)
Definition mod_ : M unit :=
  nodeEnv <- env_get "NODE_ENV" ;;
  baseConfig <- load (mkLoadOptions None (Some true)) ;;
  for_of (keys baseConfig) set_add ;;
  match nodeEnv with
  | Some n =>
      if truthy_string n then
        envConfig <- load (mkLoadOptions (Some (EnvPathString (".env." +:+ n))) None) ;;
        for_of envConfig overlay_entry
      else ret tt
  | None => ret tt
  end ;;
  tracked <- set_to_array ;;
  console_log (summary tracked).

End Program.

(** ** Pure views of the loops and of the file loader *)

(** What [parseFileSync]/[parseFile] hand back for a path, as a function of
    the read primitive: the [catch] turns a [NotFound] into [{}] and rethrows
    anything else. *)
Definition loadFile (read : filepath → error + string)
    (parse : string → error + Config) (p : filepath) : error + Config :=
  match read p with
  | inl e => if is_NotFound e then inr [] else inl e
  | inr text =>
      match parse text with
      | inl e => if is_NotFound e then inr [] else inl e
      | inr conf => inr conf
      end
  end.

(** A loop whose body may throw, as a function of the state it threads:
    it stops at the first turn that throws, with the state of that moment. *)
Fixpoint run_steps {S A : Type} (step : S → A → (error + unit) * S)
    (l : list A) (s : S) : (error + unit) * S :=
  match l with
  | [] => (inr tt, s)
  | x :: rest =>
      match step s x with
      | (inr _, s') => run_steps step rest s'
      | (inl e, s') => (inl e, s')
      end
  end.

(** One turn of the export loop on the environment table. *)
Definition export_try (e : gmap string string) (entry : string * string)
    : (error + unit) * gmap string string :=
  match env_name_error entry.1 with
  | Some err => (inl err, e)
  | None =>
      match e !! entry.1 with
      | Some _ => (inr tt, e)
      | None =>
          match env_value_error entry.2 with
          | Some err => (inl err, e)
          | None => (inr tt, <[entry.1 := entry.2]> e)
          end
      end
  end.

Definition export_run (conf : Config) (e : gmap string string)
    : (error + unit) * gmap string string :=
  run_steps export_try conf e.

(** The table an export loop that ran to its end leaves. *)
Definition export_step (e : gmap string string) (entry : string * string)
    : gmap string string :=
  match e !! entry.1 with
  | Some _ => e
  | None => <[entry.1 := entry.2]> e
  end.

Definition export_all (conf : Config) (e : gmap string string) : gmap string string :=
  foldl export_step e conf.

(** An entry the loop is done with: its name is accepted and the table has
    it. *)
Definition exported (e : gmap string string) (entry : string * string) : Prop :=
  env_name_error entry.1 = None ∧ is_Some (e !! entry.1).

(** The two things the overlay loop reads and writes: the environment table
    and the tracking set. *)
Abbreviation vars := (gmap string string * list string)%type.

Definition vars_of (w : world) : vars := (Deno_env w, SET_VARIABLES w).

Definition with_vars (s : vars) (w : world) : world :=
  mkWorld s.1 s.2 (console w) (fs_reads w).

(** The test of the overlay loop: [SET_VARIABLES.has(key) || !Deno.env.get(key)]. *)
Definition overlay_writes (key : string) (s : vars) : bool :=
  Set_has key s.2 || negb (truthy (s.1 !! key)).

Definition overlay_write (s : vars) (entry : string * string) : vars :=
  (<[entry.1 := entry.2]> s.1, Set_add entry.1 s.2).

(** One turn of the overlay loop. *)
Definition overlay_step (s : vars) (entry : string * string) : (error + unit) * vars :=
  if Set_has entry.1 s.2 then
    match env_set_error entry.1 entry.2 with
    | Some err => (inl err, s)
    | None => (inr tt, overlay_write s entry)
    end
  else
    match env_name_error entry.1 with
    | Some err => (inl err, s)
    | None =>
        if truthy (s.1 !! entry.1) then (inr tt, s)
        else match env_value_error entry.2 with
             | Some err => (inl err, s)
             | None => (inr tt, overlay_write s entry)
             end
    end.

Definition overlay_run (overlay : Config) (s : vars) : (error + unit) * vars :=
  run_steps overlay_step overlay s.

(** An entry the overlay loop would pass again without changing the set:
    its key is tracked and [Deno.env] accepts the pair, or its key is
    untracked with a non-empty value in the table. *)
Definition settled (s : vars) (entry : string * string) : Prop :=
  (entry.1 ∈ s.2 ∧ env_set_error entry.1 entry.2 = None)
  ∨ ((entry.1 ∉ s.2) ∧ env_name_error entry.1 = None ∧ truthy (s.1 !! entry.1) = true).

(** The same, with the table already holding the entry's value when the key
    is tracked: passing the entry again changes nothing at all. *)
Definition settled_eq (s : vars) (entry : string * string) : Prop :=
  (entry.1 ∈ s.2 ∧ env_set_error entry.1 entry.2 = None ∧ s.1 !! entry.1 = Some entry.2)
  ∨ ((entry.1 ∉ s.2) ∧ env_name_error entry.1 = None ∧ truthy (s.1 !! entry.1) = true).

(** [for (const key of ks) SET_VARIABLES.add(key)] on the set. *)
Definition Set_add_all (ks : list string) (s : list string) : list string :=
  foldl (λ acc k, Set_add k acc) s ks.

(** The indicator as the layered loaders use it: [NODE_ENV] when truthy. *)
Definition indicator (w : world) : option string :=
  match Deno_env w !! "NODE_ENV" with
  | Some n => if truthy_string n then Some n else None
  | None => None
  end.

Definition overlay_path (n : string) : filepath := PathString (".env." +:+ n).

Definition base_path : filepath := PathString ".env".

Definition log_read (p : filepath) (w : world) : world :=
  with_reads (λ r, r ++ [p]) w.

Definition log_summary (w : world) : world :=
  with_console (λ out, out ++ [summary (SET_VARIABLES w)]) w.

(** A single-file load as one function of the read primitive. *)
Definition single (read : filepath → error + string)
    (parse : string → error + Config) (options : LoadOptions) (w : world)
    : (error + Config) * world :=
  match resolved_path (envPath_of options) with
  | None => (inr [], w)
  | Some p =>
      match loadFile read parse p with
      | inl e => (inl e, log_read p w)
      | inr conf =>
          if export_of options then
            match export_run conf (Deno_env w) with
            | (inl e, env1) => (inl e, with_env (λ _, env1) (log_read p w))
            | (inr _, env1) => (inr conf, with_env (λ _, env1) (log_read p w))
            end
          else (inr conf, log_read p w)
      end
  end.

(** The world a layered load has reached once its base step is done: the
    base export ran to its end and every base key was added to the set. *)
Definition after_base (base : Config) (w : world) : world :=
  with_set (Set_add_all (keys base)) (with_env (export_all base) (log_read base_path w)).

(** What a layered load does after its base step, from the world [w1] that
    step left and the indicator read when the call started. *)
Definition overlay_phase (read : filepath → error + string)
    (parse : string → error + Config) (nodeEnv : option string) (w1 : world)
    : (error + unit) * world :=
  match nodeEnv with
  | None => (inr tt, log_summary w1)
  | Some n =>
      match loadFile read parse (overlay_path n) with
      | inl e => (inl e, log_read (overlay_path n) w1)
      | inr overlay =>
          match overlay_run overlay (vars_of w1) with
          | (inl e, s) => (inl e, with_vars s (log_read (overlay_path n) w1))
          | (inr _, s) =>
              (inr tt, log_summary (with_vars s (log_read (overlay_path n) w1)))
          end
      end
  end.

(** A layered load as one function of the read primitive. *)
Definition layered (read : filepath → error + string)
    (parse : string → error + Config) (w : world) : (error + unit) * world :=
  match loadFile read parse base_path with
  | inl e => (inl e, log_read base_path w)
  | inr base =>
      match export_run base (Deno_env w) with
      | (inl e, env1) => (inl e, with_env (λ _, env1) (log_read base_path w))
      | (inr _, _) =>
          let w1 := after_base base w in
          match indicator w with
          | None => (inr tt, log_summary w1)
          | Some n =>
              match loadFile read parse (overlay_path n) with
              | inl e => (inl e, log_read (overlay_path n) w1)
              | inr overlay =>
                  match overlay_run overlay (vars_of w1) with
                  | (inl e, s) => (inl e, with_vars s (log_read (overlay_path n) w1))
                  | (inr _, s) =>
                      (inr tt, log_summary (with_vars s (log_read (overlay_path n) w1)))
                  end
              end
          end
      end
  end.

(** ** A small file system and parser to run the program on *)

Inductive node : Type :=
  | File (text : string)
  | Directory.

Fixpoint find_node (files : list (string * node)) (name : string) : option node :=
  match files with
  | [] => None
  | (n, x) :: rest => if decide (n = name) then Some x else find_node rest name
  end.

Definition read_from (files : list (string * node)) (p : filepath) : error + string :=
  match p with
  | PathString s =>
      match find_node files s with
      | Some (File text) => inr text
      | Some Directory => inl (OtherError "Error" "Is a directory (os error 21)")
      | None => inl (NotFound "No such file or directory (os error 2)")
      end
  | PathURL u => inl (NotFound "No such file or directory (os error 2)")
  end.

Definition newline : string := String (Ascii.ascii_of_nat 10) EmptyString.

Fixpoint lines (s : string) : list string :=
  match s with
  | EmptyString => [EmptyString]
  | String c rest =>
      if Ascii.eqb c (Ascii.ascii_of_nat 10) then EmptyString :: lines rest
      else match lines rest with
           | l :: ls => String c l :: ls
           | [] => [String c EmptyString]
           end
  end.

Fixpoint split_assignment (s : string) : option (string * string) :=
  match s with
  | EmptyString => None
  | String c rest =>
      if Ascii.eqb c (Ascii.ascii_of_nat 61) then Some (EmptyString, rest)
      else match split_assignment rest with
           | Some (k, v) => Some (String c k, v)
           | None => None
           end
  end.

(** Plain [KEY=value] lines only: enough of [parse] for the examples. *)
Definition parse_plain (text : string) : error + Config :=
  inr (omap split_assignment (lines text)).

Definition unlines (ls : list string) : string := join newline ls.

(** ** Sequences of operations on one process *)

(** What can happen to the process between and around loads: the four
    exported operations, and code outside the module writing or deleting an
    environment variable. *)
Inductive call : Type :=
  | CallLoadSync (options : LoadOptions)
  | CallLoad (options : LoadOptions)
  | CallLoadEnvSync
  | CallMod
  | OutsideSet (key value : string)
  | OutsideDelete (key : string).

Section Calls.

Variable readTextFileSync : filepath → error + string.
Variable readTextFile : filepath → error + string.
Variable parse : string → error + Config.

(** The world after one operation, whether it returned or threw. *)
Definition run_call (w : world) (c : call) : world :=
  match c with
  | CallLoadSync options => (loadSync readTextFileSync parse options w).2
  | CallLoad options => (load readTextFile parse options w).2
  | CallLoadEnvSync => (loadEnvSync readTextFileSync parse w).2
  | CallMod => (mod_ readTextFile parse w).2
  | OutsideSet key value => with_env <[key := value]> w
  | OutsideDelete key => with_env (delete key) w
  end.

Definition run_calls (w : world) (cs : list call) : world :=
  foldl run_call w cs.

(** *** Sentences of the specification, word for word *)

(** "write it into the process environment ... if and only if either (a)
    the key is already in the tracking set, or (b) the key is currently
    absent/unset in the process environment"; otherwise "the overlay value
    is discarded for that key". *)
Definition overlay_rule_claimed (w : world) (entry : string * string) : Prop :=
  let w' := (overlay_entry entry w).2 in
  if decide (entry.1 ∈ SET_VARIABLES w ∨ Deno_env w !! entry.1 = None)
  then Deno_env w' = <[entry.1 := entry.2]> (Deno_env w) ∧ entry.1 ∈ SET_VARIABLES w'
  else w' = w.

(** "if K has an externally-set value and appears only in the overlay file
    (not in base), after a layered load, environment[K] remains the
    original external value". *)
Definition overlay_keeps_external_claimed (w : world) (K : string) : Prop :=
  ∀ V base,
    Deno_env w !! K = Some V →
    K ∉ SET_VARIABLES w →
    loadFile readTextFileSync parse base_path = inr base →
    K ∉ keys base →
    Deno_env (loadEnvSync readTextFileSync parse w).2 !! K = Some V.

(** "it loads the base file ... → it reads the current environment
    indicator variable": an indicator that only the base file provides
    selects the overlay of the same call. *)
Definition indicator_after_base_claimed (w : world) : Prop :=
  ∀ base v,
    Deno_env w !! "NODE_ENV" = None →
    loadFile readTextFileSync parse base_path = inr base →
    conf_get base "NODE_ENV" = Some v →
    v ≠ "" →
    overlay_path v ∈ fs_reads (loadEnvSync readTextFileSync parse w).2.

(** "re-invoking a layered load twice with the same files yields a tracking
    set that is ... for unchanged files, equal to the set from the first
    call". *)
Definition reinvoke_equal_claimed (w : world) : Prop :=
  let w1 := (loadEnvSync readTextFileSync parse w).2 in
  SET_VARIABLES (loadEnvSync readTextFileSync parse w1).2 = SET_VARIABLES w1.

(** "a single line of text ... emitted once per layered-load call". *)
Definition one_summary_claimed (w : world) : Prop :=
  let w' := (loadEnvSync readTextFileSync parse w).2 in
  console w' = console w ++ [summary (SET_VARIABLES w')].

(** "if K is present in both base and overlay files and absent from the
    environment before either load, after a layered load, environment[K]
    equals the overlay's value for K", the overlay being the file named after
    the indicator that the loaded base leaves in the environment. *)
Definition overlay_wins_claimed (w : world) : Prop :=
  ∀ n base overlay K v,
    Deno_env (loadSync readTextFileSync parse (mkLoadOptions None (Some true)) w).2
      !! "NODE_ENV" = Some n →
    n ≠ "" →
    loadFile readTextFileSync parse base_path = inr base →
    loadFile readTextFileSync parse (overlay_path n) = inr overlay →
    K ∈ keys base →
    (K, v) ∈ overlay →
    Deno_env w !! K = None →
    Deno_env (loadEnvSync readTextFileSync parse w).2 !! K = Some v.

(** "Return the loaded mapping (independent of whether export happened).
    No errors beyond those propagated from the File Loader." *)
Definition returns_loaded_mapping_claimed (options : LoadOptions) (w : world) : Prop :=
  (loadSync readTextFileSync parse options w).1
  = match resolved_path (envPath_of options) with
    | Some p => loadFile readTextFileSync parse p
    | None => inr []
    end.

(** "options.path, defaulting to a conventional base-file name if the
    field was never supplied at all; if the field was explicitly supplied
    as empty/null, skip reading". *)
Definition effective_path_claimed (options : LoadOptions) : option filepath :=
  match envPath options with
  | None => Some (PathString ".env")
  | Some EnvPathNull => None
  | Some (EnvPathString s) => if decide (s = "") then None else Some (PathString s)
  | Some (EnvPathURL u) => Some (PathURL u)
  end.

(** "the overlay step of a layered load counts it as unset — the overlay
    value overwrites it and the key is added to the tracking set even when
    the key was never tracked". *)
Definition empty_counts_as_unset_claimed (w : world) (K : string) : Prop :=
  ∀ n overlay v,
    Deno_env w !! K = Some "" →
    Deno_env w !! "NODE_ENV" = Some n →
    n ≠ "" →
    loadFile readTextFileSync parse (overlay_path n) = inr overlay →
    conf_get overlay K = Some v →
    Deno_env (loadEnvSync readTextFileSync parse w).2 !! K = Some v
    ∧ K ∈ SET_VARIABLES (loadEnvSync readTextFileSync parse w).2.

End Calls.

(** ** Concrete processes *)

(** The README's project: a base file and a development overlay. *)
Definition files_readme : list (string * node) :=
  [(".env", File (unlines ["DATABASE_URL=postgres://localhost/myapp"; "LOG_LEVEL=info"]));
   (".env.development",
    File (unlines ["DATABASE_URL=postgres://localhost/myapp_dev"; "DEBUG=true"]))].

Definition world_readme : world :=
  process_start {[ "NODE_ENV" := "development" ]}.

(** A base file that itself names the environment. *)
Definition files_indicator_in_base : list (string * node) :=
  [(".env", File (unlines ["NODE_ENV=development"; "BASE=1"]));
   (".env.development", File (unlines ["DEBUG=true"; "BASE=2"]))].

(** Only an overlay file, and a variable exported empty by the shell. *)
Definition files_overlay_only : list (string * node) :=
  [(".env.development", File "EXT=overlay")].

Definition world_empty_external : world :=
  process_start {[ "NODE_ENV" := "development"; "EXT" := "" ]}.

Definition world_external : world :=
  process_start {[ "NODE_ENV" := "development"; "EXT" := "outside" ]}.

(** [.env] is a directory: the read fails with something other than
    [NotFound]. *)
Definition files_base_is_directory : list (string * node) :=
  [(".env", Directory)].

(** The operator exported [LOG_LEVEL] before the process started. *)
Definition world_operator_log_level : world :=
  process_start {[ "LOG_LEVEL" := "trace" ]}.

Definition export_default : LoadOptions := mkLoadOptions None (Some true).

(** A base file alone, and a file under another name with an empty value. *)
Definition files_base_only : list (string * node) :=
  [(".env", File (unlines ["DATABASE_URL=postgres://localhost/myapp"; "LOG_LEVEL=info"]))].

Definition files_custom : list (string * node) :=
  [("custom.env", File "EMPTY_VAR=")].

(** ** [utils.ts]: boolean conventions for environment variables *)

(** [String.prototype.toLowerCase] on the letters A to Z; every other
    character is left as it is.  (On characters outside ASCII the runtime
    lowercases more, but never into one of the words of [TRUTHY_VALUES], so
    [isTruthyString] answers the same.) *)
Definition lower_ascii (c : Ascii.ascii) : Ascii.ascii :=
  let n := Ascii.nat_of_ascii c in
  if (65 <=? n)%nat && (n <=? 90)%nat then Ascii.ascii_of_nat (n + 32) else c.

Fixpoint toLowerCase (s : string) : string :=
  match s with
  | EmptyString => EmptyString
  | String c rest => String (lower_ascii c) (toLowerCase rest)
  end.

Definition TRUTHY_VALUES : list string :=
  ["true"; "t"; "1"; "y"; "yes"; "on"; "enabled"; "active"].

(** [TRUTHY_VALUES.includes(value.toLowerCase())]. *)
Definition isTruthyString (value : string) : bool :=
  bool_decide (toLowerCase value ∈ TRUTHY_VALUES).

(** [(Deno.env.get(key) ?? '').toLowerCase()], then [isTruthyString]. *)
Definition isEnvVarTruthy (key : string) : M bool :=
  (cur <- env_get key ;;
   let value := toLowerCase (default "" cur) in
   ret (isTruthyString value))%js.

(** A letter in its other case; any other character as it is. *)
Definition flip_case (c : Ascii.ascii) : Ascii.ascii :=
  let n := Ascii.nat_of_ascii c in
  if (65 <=? n)%nat && (n <=? 90)%nat then Ascii.ascii_of_nat (n + 32)
  else if (97 <=? n)%nat && (n <=? 122)%nat then Ascii.ascii_of_nat (n - 32)
  else c.

(** Two strings of one length that, place by place, hold the same
    character or the same letter in its two cases. *)
Fixpoint differ_in_case (s t : string) : bool :=
  match s, t with
  | EmptyString, EmptyString => true
  | String a s', String b t' =>
      (Ascii.eqb a b || Ascii.eqb b (flip_case a)) && differ_in_case s' t'
  | _, _ => false
  end.

(** A letter of either case, or the digit 1. *)
Definition letter_or_one (c : Ascii.ascii) : bool :=
  let n := Ascii.nat_of_ascii c in
  ((65 <=? n)%nat && (n <=? 90)%nat)
  || ((97 <=? n)%nat && (n <=? 122)%nat)
  || (n =? 49)%nat.

Fixpoint all_chars (P : Ascii.ascii → bool) (s : string) : bool :=
  match s with
  | EmptyString => true
  | String c rest => P c && all_chars P rest
  end.

(** ** The auto-loading modules *)

(** What importing a module leaves: how its body ended, the world, and the
    lines given to [console.warn]. *)
Record imported : Type := mkImported {
  outcome : error + unit;
  world_after : world;
  warnings : list string
}.

Definition not_a_function_warning : string :=
  "Deno.readTextFileSync is not a function: No .env data was read.".

(** [load-env.ts].  [Deno.readTextFileSync instanceof Function] holds when
    the runtime provides the primitive. *)
Definition load_env_ts (readTextFileSync : option (filepath → error + string))
    (parse : string → error + Config) (w : world) : imported :=
  match readTextFileSync with
  | None => mkImported (inr tt) w [not_a_function_warning]
  | Some read =>
      let r := loadEnvSync read parse w in
      mkImported r.1 r.2 []
  end.

(** The standard-compatible auto-loader, whose body calls [loadSync()] and
    drops what it returns. *)
Definition load_ts (readTextFileSync : option (filepath → error + string))
    (parse : string → error + Config) (w : world) : imported :=
  match readTextFileSync with
  | None => mkImported (inr tt) w [not_a_function_warning]
  | Some read =>
      let r := loadSync read parse (mkLoadOptions None None) w in
      mkImported (match r.1 with inl e => inl e | inr _ => inr tt end) r.2 []
  end.

(** The operations of [call] that are loads of this module. *)
Definition is_load (c : call) : bool :=
  match c with
  | OutsideSet _ _ | OutsideDelete _ => false
  | _ => true
  end.

Definition deletes (c : call) : bool :=
  match c with
  | OutsideDelete _ => true
  | _ => false
  end.

(** Every tracked name is a variable of the environment. *)
Definition tracked_are_set (w : world) : Prop :=
  ∀ k, k ∈ SET_VARIABLES w → is_Some (Deno_env w !! k).

(** A base file whose value holds a NUL character. *)
Definition files_nul_value : list (string * node) :=
  [(".env", File ("B=x" +:+ String NUL "y"))].

(** An overlay file whose value holds a NUL character, alone and over a
    base file with the same key. *)
Definition files_nul_overlay : list (string * node) :=
  [(".env.development", File ("EXT=x" +:+ String NUL "y"))].

Definition files_nul_both : list (string * node) :=
  [(".env", File "K=1"); (".env.development", File ("K=x" +:+ String NUL "y"))].

(** A base file with a flag, for the utilities. *)
Definition files_flags : list (string * node) :=
  [(".env", File (unlines ["DEBUG=TRUE"; "CACHE=off"]))].

(** ** The loops and the loaders, computed *)

Ltac by_computation := apply (bool_decide_unpack _); vm_compute; exact I.

Section Steps.

Context {S A : Type} (step : S → A → (error + unit) * S).

Lemma run_steps_app (l1 l2 : list A) (s : S) :
  run_steps step (l1 ++ l2) s
  = match run_steps step l1 s with
    | (inr _, s') => run_steps step l2 s'
    | (inl e, s') => (inl e, s')
    end.
Proof.
  revert s. induction l1 as [|x l1 IH]; intros s; simpl; [reflexivity|].
  destruct (step s x) as [[e|[]] s']; [reflexivity | apply IH].
Qed.

(** A property every turn keeps, thrown or not, holds when the loop stops. *)
Lemma run_steps_invariant (I : S → Prop) (l : list A) (s : S) :
  (∀ x s', x ∈ l → I s' → I (step s' x).2) →
  I s → I (run_steps step l s).2.
Proof.
  revert s. induction l as [|x l IH]; intros s Hstep Hs; simpl; [exact Hs|].
  pose proof (Hstep x s (list_elem_of_here _ _) Hs) as Hx.
  destruct (step s x) as [[e|[]] s']; [exact Hx|].
  apply IH; [|exact Hx]. intros y t Hy. apply Hstep. right. exact Hy.
Qed.

(** A loop that threw did so at one of its turns, after the turns before it
    had returned. *)
Lemma run_steps_thrown (l : list A) (s s' : S) (e : error) :
  run_steps step l s = (inl e, s') →
  ∃ l1 x l2 s1, l = l1 ++ x :: l2
                ∧ run_steps step l1 s = (inr tt, s1)
                ∧ step s1 x = (inl e, s').
Proof.
  revert s. induction l as [|x l IH]; intros s; simpl; [discriminate|].
  destruct (step s x) as [[e0|[]] s0] eqn:Hx.
  - intros [= -> ->]. exists [], x, l, s. split; [reflexivity|]. split; [reflexivity|exact Hx].
  - intros H. destruct (IH _ H) as (l1 & y & l2 & s1 & -> & Hrun & Hy).
    exists (x :: l1), y, l2, s1. split; [reflexivity|]. split; [|exact Hy].
    simpl. rewrite Hx. exact Hrun.
Qed.

End Steps.

Lemma with_env_same (w : world) : with_env (λ _, Deno_env w) w = w.
Proof. destruct w; reflexivity. Qed.

Lemma with_vars_same (w : world) : with_vars (vars_of w) w = w.
Proof. destruct w; reflexivity. Qed.

Lemma export_entry_try (entry : string * string) (w : world) :
  export_entry entry w
  = ((export_try (Deno_env w) entry).1,
     with_env (λ _, (export_try (Deno_env w) entry).2) w).
Proof.
  destruct entry as [k v].
  unfold export_entry, export_try, bind, env_get, env_set, env_set_error, ret; simpl.
  destruct (env_name_error k) as [e|]; simpl; [rewrite with_env_same; reflexivity|].
  destruct (Deno_env w !! k) as [old|] eqn:Hk; simpl; [rewrite with_env_same; reflexivity|].
  destruct (env_value_error v) as [e|]; simpl; [rewrite with_env_same; reflexivity|].
  destruct w; reflexivity.
Qed.

Lemma for_of_export (conf : Config) (w : world) :
  for_of conf export_entry w
  = ((export_run conf (Deno_env w)).1,
     with_env (λ _, (export_run conf (Deno_env w)).2) w).
Proof.
  unfold export_run. revert w. induction conf as [|entry conf IH]; intros w; simpl.
  - unfold ret. rewrite with_env_same. reflexivity.
  - unfold bind at 1. rewrite export_entry_try.
    destruct (export_try (Deno_env w) entry) as [[e|[]] e1]; simpl; [reflexivity|].
    rewrite IH. reflexivity.
Qed.

Lemma for_of_set_add (ks : list string) (w : world) :
  for_of ks set_add w = (inr tt, with_set (Set_add_all ks) w).
Proof.
  revert w. induction ks as [|k ks IH]; intros w.
  - destruct w; reflexivity.
  - cbn [for_of]. unfold bind at 1, set_add at 1. rewrite IH. reflexivity.
Qed.

Lemma overlay_entry_step (entry : string * string) (w : world) :
  overlay_entry entry w
  = ((overlay_step (vars_of w) entry).1,
     with_vars (overlay_step (vars_of w) entry).2 w).
Proof.
  destruct entry as [k v].
  unfold overlay_entry, overlay_step, overlay_write, bind, set_has, env_get, env_set,
    set_add, ret, vars_of; simpl.
  destruct (Set_has k (SET_VARIABLES w)); simpl.
  - destruct (env_set_error k v) as [e|]; simpl; [|reflexivity].
    rewrite <- (with_vars_same w) at 1. reflexivity.
  - unfold env_set_error.
    destruct (env_name_error k) as [e|]; simpl.
    { rewrite <- (with_vars_same w) at 1. reflexivity. }
    destruct (truthy (Deno_env w !! k)); simpl.
    { rewrite <- (with_vars_same w) at 1. reflexivity. }
    destruct (env_value_error v) as [e|]; simpl; [|reflexivity].
    rewrite <- (with_vars_same w) at 1. reflexivity.
Qed.

Lemma for_of_overlay (conf : Config) (w : world) :
  for_of conf overlay_entry w
  = ((overlay_run conf (vars_of w)).1, with_vars (overlay_run conf (vars_of w)).2 w).
Proof.
  unfold overlay_run. revert w. induction conf as [|entry conf IH]; intros w; simpl.
  - unfold ret. rewrite with_vars_same. reflexivity.
  - unfold bind at 1. rewrite overlay_entry_step.
    destruct (overlay_step (vars_of w) entry) as [[e|[]] [e1 t1]]; simpl; [reflexivity|].
    rewrite IH. reflexivity.
Qed.

Section Loaders.

Variable read : filepath → error + string.
Variable parse : string → error + Config.

Lemma parseFileSync_loadFile (p : filepath) (w : world) :
  parseFileSync read parse p w = (loadFile read parse p, log_read p w).
Proof.
  unfold parseFileSync, try_catch, bind, Deno_readTextFileSync, lift, loadFile.
  destruct (read p) as [e|text].
  - destruct (is_NotFound e); reflexivity.
  - destruct (parse text) as [e|conf]; [destruct (is_NotFound e)|]; reflexivity.
Qed.

Lemma parseFile_loadFile (p : filepath) (w : world) :
  parseFile read parse p w = (loadFile read parse p, log_read p w).
Proof.
  unfold parseFile, try_catch, bind, Deno_readTextFile, lift, loadFile.
  destruct (read p) as [e|text].
  - destruct (is_NotFound e); reflexivity.
  - destruct (parse text) as [e|conf]; [destruct (is_NotFound e)|]; reflexivity.
Qed.

Lemma loadSync_single (options : LoadOptions) (w : world) :
  loadSync read parse options w = single read parse options w.
Proof.
  unfold loadSync, single.
  destruct (resolved_path (envPath_of options)) as [p|].
  - unfold bind at 1. rewrite parseFileSync_loadFile.
    destruct (loadFile read parse p) as [e|conf]; [reflexivity|].
    destruct (export_of options).
    + unfold bind. rewrite for_of_export. simpl.
      destruct (export_run conf (Deno_env w)) as [[e|[]] env1]; reflexivity.
    + reflexivity.
  - unfold bind at 1, ret at 1.
    destruct (export_of options); destruct w; reflexivity.
Qed.

Lemma load_single (options : LoadOptions) (w : world) :
  load read parse options w = single read parse options w.
Proof.
  unfold load, single.
  destruct (resolved_path (envPath_of options)) as [p|].
  - unfold bind at 1. rewrite parseFile_loadFile.
    destruct (loadFile read parse p) as [e|conf]; [reflexivity|].
    destruct (export_of options).
    + unfold bind. rewrite for_of_export. simpl.
      destruct (export_run conf (Deno_env w)) as [[e|[]] env1]; reflexivity.
    + reflexivity.
  - unfold bind at 1, ret at 1.
    destruct (export_of options); destruct w; reflexivity.
Qed.

End Loaders.

(** ** The export loop on the environment table *)

Lemma export_try_thrown (e e' : gmap string string) (entry : string * string) (err : error) :
  export_try e entry = (inl err, e') →
  e' = e ∧ (env_name_error entry.1 = Some err
            ∨ (e !! entry.1 = None ∧ env_value_error entry.2 = Some err)).
Proof.
  unfold export_try. destruct (env_name_error entry.1) as [e0|].
  { intros [= -> ->]. split; [reflexivity | left; reflexivity]. }
  destruct (e !! entry.1) as [old|]; [discriminate|].
  destruct (env_value_error entry.2) as [e0|]; [|discriminate].
  intros [= -> ->]. split; [reflexivity | right; split; reflexivity].
Qed.

Lemma export_try_returned (e e' : gmap string string) (entry : string * string) :
  export_try e entry = (inr tt, e') →
  e' = export_step e entry ∧ env_name_error entry.1 = None ∧ is_Some (e' !! entry.1).
Proof.
  unfold export_try, export_step. destruct (env_name_error entry.1) as [e0|]; [discriminate|].
  destruct (e !! entry.1) as [old|] eqn:Hk.
  { intros [= <-]. rewrite Hk. split; [reflexivity|]. split; [reflexivity|eexists; reflexivity]. }
  destruct (env_value_error entry.2) as [e0|]; [discriminate|].
  intros [= <-]. rewrite lookup_insert_eq.
  split; [reflexivity|]. split; [reflexivity|eexists; reflexivity].
Qed.

Lemma export_try_present (e : gmap string string) (entry : string * string) (k v : string) :
  e !! k = Some v → (export_try e entry).2 !! k = Some v.
Proof.
  intros Hk. unfold export_try. destruct (env_name_error entry.1); [exact Hk|].
  destruct (e !! entry.1) as [old|] eqn:Hold; [exact Hk|].
  destruct (env_value_error entry.2); [exact Hk|]. simpl.
  rewrite lookup_insert_ne; [exact Hk|]. intros Heq. rewrite Heq in Hold. congruence.
Qed.

Lemma export_run_present (conf : Config) (e : gmap string string) (k v : string) :
  e !! k = Some v → (export_run conf e).2 !! k = Some v.
Proof.
  unfold export_run. apply (run_steps_invariant export_try (λ e', e' !! k = Some v)).
  intros x e' _. apply export_try_present.
Qed.

Lemma export_run_returned (conf : Config) (e e' : gmap string string) :
  export_run conf e = (inr tt, e') → e' = export_all conf e.
Proof.
  unfold export_run, export_all. revert e. induction conf as [|x conf IH]; intros e; simpl.
  - intros [= <-]. reflexivity.
  - destruct (export_try e x) as [[err|[]] e1] eqn:Hx; [discriminate|].
    apply export_try_returned in Hx as (-> & _). apply IH.
Qed.

Lemma export_step_lookup (e : gmap string string) (entry : string * string) (k : string) :
  export_step e entry !! k
  = match e !! k with
    | Some v => Some v
    | None => if decide (entry.1 = k) then Some entry.2 else None
    end.
Proof.
  unfold export_step. destruct (e !! entry.1) as [old|] eqn:Hold.
  - destruct (e !! k) eqn:Hk; [reflexivity|].
    case_decide; [congruence | reflexivity].
  - rewrite lookup_insert. case_decide as Heq.
    + subst k. rewrite Hold. reflexivity.
    + destruct (e !! k); reflexivity.
Qed.

Lemma export_all_lookup (conf : Config) (e : gmap string string) (k : string) :
  export_all conf e !! k
  = match e !! k with
    | Some v => Some v
    | None => conf_get conf k
    end.
Proof.
  revert e. induction conf as [|[k' v'] conf IH]; intros e; simpl.
  - destruct (e !! k); reflexivity.
  - unfold export_all in *. simpl. rewrite IH, export_step_lookup. simpl.
    destruct (e !! k); [reflexivity|]. case_decide; reflexivity.
Qed.

Lemma export_run_exported (conf : Config) (e e' : gmap string string) :
  export_run conf e = (inr tt, e') → ∀ x, x ∈ conf → exported e' x.
Proof.
  unfold export_run. revert e. induction conf as [|x conf IH]; intros e; simpl.
  - intros _ y Hy. apply elem_of_nil in Hy as [].
  - destruct (export_try e x) as [[err|[]] e1] eqn:Hx; [discriminate|].
    intros Hrun y Hy. apply elem_of_cons in Hy as [->|Hy]; [|eapply IH; eassumption].
    apply export_try_returned in Hx as (_ & Hname & [v Hv]).
    split; [exact Hname|]. exists v.
    pose proof (export_run_present conf e1 x.1 v Hv) as Hp.
    unfold export_run in Hp. rewrite Hrun in Hp. exact Hp.
Qed.

Lemma export_run_nothing_to_do (conf : Config) (e : gmap string string) :
  (∀ x, x ∈ conf → exported e x) → export_run conf e = (inr tt, e).
Proof.
  unfold export_run. induction conf as [|x conf IH]; intros H; simpl; [reflexivity|].
  destruct (H x (list_elem_of_here _ _)) as [Hname [v Hv]].
  unfold export_try. rewrite Hname, Hv. apply IH.
  intros y Hy. apply H. right. exact Hy.
Qed.

(** Running the export loop again from where it stopped ends the same way
    and changes nothing. *)
Lemma export_run_again (conf : Config) (e : gmap string string) :
  export_run conf (export_run conf e).2 = export_run conf e.
Proof.
  destruct (export_run conf e) as [[err|[]] e'] eqn:Hrun; simpl.
  - unfold export_run in Hrun.
    apply run_steps_thrown in Hrun as (l1 & x & l2 & e1 & -> & Hl1 & Hx).
    pose proof (export_try_thrown _ _ _ _ Hx) as [-> _].
    unfold export_run. rewrite run_steps_app.
    pose proof (export_run_nothing_to_do l1 e1 (export_run_exported l1 e e1 Hl1)) as Hl1'.
    unfold export_run in Hl1'. rewrite Hl1'. simpl. rewrite Hx. reflexivity.
  - apply export_run_nothing_to_do. eapply export_run_exported. exact Hrun.
Qed.

Lemma export_again_after (conf : Config) (e e' e'' : gmap string string) :
  export_run conf e = (inr tt, e') →
  (∀ k, is_Some (e' !! k) → is_Some (e'' !! k)) →
  export_run conf e'' = (inr tt, e'').
Proof.
  intros Hrun Hmore. apply export_run_nothing_to_do.
  intros x Hx. destruct (export_run_exported conf e e' Hrun x Hx) as [Hname Hp].
  split; [exact Hname | apply Hmore, Hp].
Qed.

(** ** Layered loads as one function *)

Lemma NODE_ENV_is_a_name : env_name_error "NODE_ENV" = None.
Proof. vm_compute. reflexivity. Qed.

Lemma base_step_single read parse (w : world) :
  single read parse (mkLoadOptions None (Some true)) w
  = match loadFile read parse base_path with
    | inl e => (inl e, log_read base_path w)
    | inr base =>
        match export_run base (Deno_env w) with
        | (inl e, env1) => (inl e, with_env (λ _, env1) (log_read base_path w))
        | (inr _, _) => (inr base, with_env (export_all base) (log_read base_path w))
        end
    end.
Proof.
  unfold single, envPath_of, export_of; simpl. fold base_path.
  destruct (loadFile read parse base_path) as [e|base]; [reflexivity|].
  destruct (export_run base (Deno_env w)) as [[e|[]] env1] eqn:Hrun; [reflexivity|].
  apply export_run_returned in Hrun as ->. reflexivity.
Qed.

Lemma overlay_step_single read parse (n : string) (w : world) :
  single read parse (mkLoadOptions (Some (EnvPathString (".env." +:+ n))) None) w
  = (loadFile read parse (overlay_path n), log_read (overlay_path n) w).
Proof.
  unfold single, envPath_of, export_of; simpl. fold (overlay_path n).
  destruct (loadFile read parse (overlay_path n)); reflexivity.
Qed.

Lemma layered_body read parse
    (base_step : M Config) (overlay_load : string → M Config) (w : world) :
  (∀ w', base_step w' = single read parse (mkLoadOptions None (Some true)) w') →
  (∀ n w', overlay_load n w'
           = single read parse (mkLoadOptions (Some (EnvPathString (".env." +:+ n))) None) w') →
  (nodeEnv <- env_get "NODE_ENV" ;;
   baseConfig <- base_step ;;
   for_of (keys baseConfig) set_add ;;
   match nodeEnv with
   | Some n =>
       if truthy_string n then
         envConfig <- overlay_load n ;;
         for_of envConfig overlay_entry
       else ret tt
   | None => ret tt
   end ;;
   tracked <- set_to_array ;;
   console_log (summary tracked)) w
  = layered read parse w.
Proof.
  intros Hbase Hoverlay. unfold layered.
  unfold bind at 1, env_get at 1. rewrite NODE_ENV_is_a_name.
  unfold bind at 1. rewrite Hbase, base_step_single.
  destruct (loadFile read parse base_path) as [e|base]; [reflexivity|].
  destruct (export_run base (Deno_env w)) as [[e|[]] env1]; [reflexivity|].
  unfold bind at 1. rewrite for_of_set_add.
  change (with_set _ (with_env _ _)) with (after_base base w).
  unfold indicator.
  destruct (Deno_env w !! "NODE_ENV") as [n|]; [destruct (truthy_string n)|].
  - unfold bind at 1. unfold bind at 1. rewrite Hoverlay, overlay_step_single.
    destruct (loadFile read parse (overlay_path n)) as [e|overlay]; [reflexivity|].
    rewrite for_of_overlay.
    change (vars_of (log_read (overlay_path n) (after_base base w)))
      with (vars_of (after_base base w)).
    destruct (overlay_run overlay (vars_of (after_base base w))) as [[e|[]] s];
      reflexivity.
  - reflexivity.
  - reflexivity.
Qed.

Lemma loadEnvSync_layered read parse (w : world) :
  loadEnvSync read parse w = layered read parse w.
Proof.
  unfold loadEnvSync.
  apply (layered_body read parse
           (loadSync read parse (mkLoadOptions None (Some true)))
           (λ n, loadSync read parse
                   (mkLoadOptions (Some (EnvPathString (".env." +:+ n))) None))).
  - intros w'. apply loadSync_single.
  - intros n w'. apply loadSync_single.
Qed.

Lemma mod_layered read parse (w : world) :
  mod_ read parse w = layered read parse w.
Proof.
  unfold mod_.
  apply (layered_body read parse
           (load read parse (mkLoadOptions None (Some true)))
           (λ n, load read parse
                   (mkLoadOptions (Some (EnvPathString (".env." +:+ n))) None))).
  - intros w'. apply load_single.
  - intros n w'. apply load_single.
Qed.

(** ** Single-file loads *)

Lemma single_env_present read parse (options : LoadOptions) (w : world) (k v : string) :
  Deno_env w !! k = Some v →
  Deno_env (single read parse options w).2 !! k = Some v.
Proof.
  intros H. unfold single.
  destruct (resolved_path (envPath_of options)) as [p|]; [|exact H].
  destruct (loadFile read parse p) as [e|conf]; [exact H|].
  destruct (export_of options); [|exact H].
  pose proof (export_run_present conf (Deno_env w) k v H) as Hp.
  destruct (export_run conf (Deno_env w)) as [[e|[]] env1]; exact Hp.
Qed.

Lemma single_exported read parse (options : LoadOptions) (w : world) (conf : Config) :
  export options = Some true →
  (single read parse options w).1 = inr conf →
  ∀ k, Deno_env (single read parse options w).2 !! k
       = match Deno_env w !! k with
         | Some v => Some v
         | None => conf_get conf k
         end.
Proof.
  intros Hex Hres k. unfold single, export_of in *. rewrite Hex in *; simpl in *.
  destruct (resolved_path (envPath_of options)) as [p|].
  - destruct (loadFile read parse p) as [e|conf']; [discriminate|].
    destruct (export_run conf' (Deno_env w)) as [[e|[]] env1] eqn:Hrun; [discriminate|].
    simpl in *. injection Hres as ->.
    apply export_run_returned in Hrun as ->. apply export_all_lookup.
  - simpl in *. injection Hres as <-. simpl. destruct (Deno_env w !! k); reflexivity.
Qed.

Lemma single_frame read parse (options : LoadOptions) (w : world) :
  SET_VARIABLES (single read parse options w).2 = SET_VARIABLES w
  ∧ console (single read parse options w).2 = console w.
Proof.
  unfold single. destruct (resolved_path (envPath_of options)) as [p|].
  - destruct (loadFile read parse p) as [e|conf]; [split; reflexivity|].
    destruct (export_of options); [|split; reflexivity].
    destruct (export_run conf (Deno_env w)) as [[e|[]] env1]; split; reflexivity.
  - split; reflexivity.
Qed.

Lemma single_reads read parse (options : LoadOptions) (w : world) :
  fs_reads (single read parse options w).2
  = fs_reads w ++ match resolved_path (envPath_of options) with
                  | Some p => [p]
                  | None => []
                  end.
Proof.
  unfold single. destruct (resolved_path (envPath_of options)) as [p|].
  - destruct (loadFile read parse p) as [e|conf]; [reflexivity|].
    destruct (export_of options); [|reflexivity].
    destruct (export_run conf (Deno_env w)) as [[e|[]] env1]; reflexivity.
  - simpl. rewrite app_nil_r. reflexivity.
Qed.

(** C2: with [export: true], [loadSync] and [load] set a key of the loaded
    mapping only when the environment does not have it yet: afterwards every
    key reads what it read before if it was present, and otherwise what the
    mapping gives it; so a variable set from outside to [V] still reads [V]
    after the load, whatever the file says and whether or not the load
    throws. *)
Theorem export_never_clobbers
    (readTextFileSync readTextFile : filepath → error + string)
    (parse : string → error + Config) (options : LoadOptions) (w : world) :
  export options = Some true →
  let sync := loadSync readTextFileSync parse options w in
  let async := load readTextFile parse options w in
  (∀ K V, Deno_env w !! K = Some V →
          Deno_env sync.2 !! K = Some V ∧ Deno_env async.2 !! K = Some V)
  ∧ (∀ conf, sync.1 = inr conf →
       ∀ k, Deno_env sync.2 !! k
            = match Deno_env w !! k with Some v => Some v | None => conf_get conf k end)
  ∧ (∀ conf, async.1 = inr conf →
       ∀ k, Deno_env async.2 !! k
            = match Deno_env w !! k with Some v => Some v | None => conf_get conf k end).
Proof.
  intros Hex sync async. subst sync async.
  rewrite loadSync_single, load_single. split; [|split].
  - intros K V H. split; apply single_env_present, H.
  - intros conf Hres. apply single_exported; assumption.
  - intros conf Hres. apply single_exported; assumption.
Qed.

Lemma export_never_clobbers_witness :
  Deno_env (loadSync (read_from files_readme) parse_plain export_default
              world_operator_log_level).2 !! "LOG_LEVEL" = Some "trace".
Proof.
  refine (proj1 (proj1 (export_never_clobbers (read_from files_readme)
                          (read_from files_readme) parse_plain export_default
                          world_operator_log_level _) "LOG_LEVEL" "trace" _)).
  - reflexivity.
  - vm_compute. reflexivity.
Defined.

(** ** Failures of the file loader *)

Lemma loadFile_missing read parse (p : filepath) (e : error) :
  read p = inl e → is_NotFound e = true → loadFile read parse p = inr [].
Proof. unfold loadFile. intros -> ->. reflexivity. Qed.

Lemma loadFile_read_failure read parse (p : filepath) (e : error) :
  read p = inl e → is_NotFound e = false → loadFile read parse p = inl e.
Proof. unfold loadFile. intros -> ->. reflexivity. Qed.

Lemma loadFile_parse_failure read parse (p : filepath) (text : string) (e : error) :
  read p = inr text → parse text = inl e → is_NotFound e = false →
  loadFile read parse p = inl e.
Proof. unfold loadFile. intros -> -> ->. reflexivity. Qed.

Lemma single_load_failure read parse (options : LoadOptions) (p : filepath)
    (e : error) (w : world) :
  resolved_path (envPath_of options) = Some p →
  loadFile read parse p = inl e →
  (single read parse options w).1 = inl e.
Proof. intros Hp Hload. unfold single. rewrite Hp, Hload. reflexivity. Qed.

Lemma single_missing read parse (options : LoadOptions) (p : filepath)
    (e : error) (w : world) :
  resolved_path (envPath_of options) = Some p →
  read p = inl e → is_NotFound e = true →
  single read parse options w = (inr [], log_read p w).
Proof.
  intros Hp Hread He. unfold single.
  rewrite Hp, (loadFile_missing _ _ _ _ Hread He).
  destruct (export_of options); [|reflexivity].
  simpl. destruct w; reflexivity.
Qed.

(** What the base step of a layered load returned, read off [single]. *)
Lemma base_step_returned read parse (w : world) (base : Config) :
  (single read parse (mkLoadOptions None (Some true)) w).1 = inr base →
  loadFile read parse base_path = inr base
  ∧ export_run base (Deno_env w) = (inr tt, export_all base (Deno_env w)).
Proof.
  rewrite base_step_single.
  destruct (loadFile read parse base_path) as [e|base']; [discriminate|].
  destruct (export_run base' (Deno_env w)) as [[e|[]] env1] eqn:Hrun; [discriminate|].
  simpl. intros [= ->]. split; [reflexivity|].
  pose proof (export_run_returned _ _ _ Hrun) as Heq. subst env1.
  first [exact Hrun | reflexivity].
Qed.

Lemma layered_base_failure read parse (w : world) (e : error) :
  loadFile read parse base_path = inl e →
  layered read parse w = (inl e, log_read base_path w).
Proof. unfold layered. intros ->. reflexivity. Qed.

Lemma layered_after_base read parse (w : world) (base : Config) :
  (single read parse (mkLoadOptions None (Some true)) w).1 = inr base →
  layered read parse w
  = let w1 := after_base base w in
    match indicator w with
    | None => (inr tt, log_summary w1)
    | Some n =>
        match loadFile read parse (overlay_path n) with
        | inl e => (inl e, log_read (overlay_path n) w1)
        | inr overlay =>
            match overlay_run overlay (vars_of w1) with
            | (inl e, s) => (inl e, with_vars s (log_read (overlay_path n) w1))
            | (inr _, s) =>
                (inr tt, log_summary (with_vars s (log_read (overlay_path n) w1)))
            end
        end
    end.
Proof.
  intros H. apply base_step_returned in H as [Hload Hrun].
  unfold layered. rewrite Hload, Hrun. reflexivity.
Qed.

Lemma layered_overlay_failure read parse (w : world) (n : string)
    (base : Config) (e : error) :
  indicator w = Some n →
  (single read parse (mkLoadOptions None (Some true)) w).1 = inr base →
  loadFile read parse (overlay_path n) = inl e →
  layered read parse w = (inl e, log_read (overlay_path n) (after_base base w)).
Proof.
  intros Hn Hbase Hoverlay. rewrite (layered_after_base _ _ _ _ Hbase).
  cbv zeta. rewrite Hn, Hoverlay. reflexivity.
Qed.

(** C5: a read that fails with [NotFound] makes the file loader, and
    [loadSync]/[load] whatever [export] says, return the empty mapping
    without throwing and without touching the environment; a read or parse
    failure of any other kind comes out of the file loader and of
    [loadSync]/[load] as the very same error, and out of the layered
    loaders too: from the base file always, from the overlay file once the
    base step has returned. *)
Theorem file_failures
    (readTextFileSync readTextFile : filepath → error + string)
    (parse : string → error + Config) (p : filepath) (w : world) :
  (∀ e, is_NotFound e = true →
     (readTextFileSync p = inl e →
        (parseFileSync readTextFileSync parse p w).1 = inr []
        ∧ ∀ options, resolved_path (envPath_of options) = Some p →
            (loadSync readTextFileSync parse options w).1 = inr []
            ∧ Deno_env (loadSync readTextFileSync parse options w).2 = Deno_env w)
     ∧ (readTextFile p = inl e →
        (parseFile readTextFile parse p w).1 = inr []
        ∧ ∀ options, resolved_path (envPath_of options) = Some p →
            (load readTextFile parse options w).1 = inr []
            ∧ Deno_env (load readTextFile parse options w).2 = Deno_env w))
  ∧ (∀ e, is_NotFound e = false →
     (readTextFileSync p = inl e
      ∨ (∃ text, readTextFileSync p = inr text ∧ parse text = inl e) →
        (parseFileSync readTextFileSync parse p w).1 = inl e
        ∧ (∀ options, resolved_path (envPath_of options) = Some p →
             (loadSync readTextFileSync parse options w).1 = inl e)
        ∧ (p = base_path → (loadEnvSync readTextFileSync parse w).1 = inl e)
        ∧ (∀ n base, p = overlay_path n → indicator w = Some n →
             (loadSync readTextFileSync parse (mkLoadOptions None (Some true)) w).1
             = inr base →
             (loadEnvSync readTextFileSync parse w).1 = inl e))
     ∧ (readTextFile p = inl e
        ∨ (∃ text, readTextFile p = inr text ∧ parse text = inl e) →
        (parseFile readTextFile parse p w).1 = inl e
        ∧ (∀ options, resolved_path (envPath_of options) = Some p →
             (load readTextFile parse options w).1 = inl e)
        ∧ (p = base_path → (mod_ readTextFile parse w).1 = inl e)
        ∧ (∀ n base, p = overlay_path n → indicator w = Some n →
             (load readTextFile parse (mkLoadOptions None (Some true)) w).1 = inr base →
             (mod_ readTextFile parse w).1 = inl e))).
Proof.
  split; intros e He; split.
  - intros Hread. rewrite parseFileSync_loadFile; simpl.
    split; [eapply loadFile_missing; eassumption|].
    intros options Hp. rewrite loadSync_single.
    rewrite (single_missing _ _ _ _ _ _ Hp Hread He). split; reflexivity.
  - intros Hread. rewrite parseFile_loadFile; simpl.
    split; [eapply loadFile_missing; eassumption|].
    intros options Hp. rewrite load_single.
    rewrite (single_missing _ _ _ _ _ _ Hp Hread He). split; reflexivity.
  - intros Hfail.
    assert (Hload : loadFile readTextFileSync parse p = inl e).
    { destruct Hfail as [Hread|(text & Hread & Hparse)].
      - eapply loadFile_read_failure; eassumption.
      - eapply loadFile_parse_failure; eassumption. }
    rewrite parseFileSync_loadFile; simpl. split; [exact Hload|].
    split; [|split].
    + intros options Hp. rewrite loadSync_single.
      eapply single_load_failure; eassumption.
    + intros ->. rewrite loadEnvSync_layered, (layered_base_failure _ _ _ _ Hload).
      reflexivity.
    + intros n base -> Hn Hbase. rewrite loadSync_single in Hbase.
      rewrite loadEnvSync_layered, (layered_overlay_failure _ _ _ _ _ _ Hn Hbase Hload).
      reflexivity.
  - intros Hfail.
    assert (Hload : loadFile readTextFile parse p = inl e).
    { destruct Hfail as [Hread|(text & Hread & Hparse)].
      - eapply loadFile_read_failure; eassumption.
      - eapply loadFile_parse_failure; eassumption. }
    rewrite parseFile_loadFile; simpl. split; [exact Hload|].
    split; [|split].
    + intros options Hp. rewrite load_single.
      eapply single_load_failure; eassumption.
    + intros ->. rewrite mod_layered, (layered_base_failure _ _ _ _ Hload).
      reflexivity.
    + intros n base -> Hn Hbase. rewrite load_single in Hbase.
      rewrite mod_layered, (layered_overlay_failure _ _ _ _ _ _ Hn Hbase Hload).
      reflexivity.
Qed.

Lemma file_failures_witness :
  (loadSync (read_from files_readme) parse_plain
     (mkLoadOptions (Some (EnvPathString ".env.nonexistent")) (Some true))
     world_readme).1 = inr []
  ∧ (loadEnvSync (read_from files_base_is_directory) parse_plain world_readme).1
    = inl (OtherError "Error" "Is a directory (os error 21)")
  ∧ (loadEnvSync (read_from [(".env", File "BASE=1"); (".env.development", Directory)])
       parse_plain world_readme).1
    = inl (OtherError "Error" "Is a directory (os error 21)").
Proof.
  split; [|split].
  - refine (proj1 (proj2 (proj1 (proj1 (file_failures (read_from files_readme)
              (read_from files_readme) parse_plain (PathString ".env.nonexistent")
              world_readme) (NotFound "No such file or directory (os error 2)") _) _)
              (mkLoadOptions (Some (EnvPathString ".env.nonexistent")) (Some true)) _));
      reflexivity.
  - refine (proj1 (proj2 (proj2 (proj1 (proj2 (file_failures
              (read_from files_base_is_directory) (read_from files_base_is_directory)
              parse_plain base_path world_readme)
              (OtherError "Error" "Is a directory (os error 21)") _) _))) _).
    + reflexivity.
    + left. reflexivity.
    + reflexivity.
  - refine (proj2 (proj2 (proj2 (proj1 (proj2 (file_failures
              (read_from [(".env", File "BASE=1"); (".env.development", Directory)])
              (read_from [(".env", File "BASE=1"); (".env.development", Directory)])
              parse_plain (overlay_path "development") world_readme)
              (OtherError "Error" "Is a directory (os error 21)") _) _)))
              "development" [("BASE", "1")] _ _ _).
    + reflexivity.
    + left. reflexivity.
    + reflexivity.
    + vm_compute. reflexivity.
    + vm_compute. reflexivity.
Defined.

(** ** The effective path and the result *)

Lemma resolved_path_claimed (options : LoadOptions) :
  resolved_path (envPath_of options) = effective_path_claimed options.
Proof.
  unfold envPath_of, effective_path_claimed, resolved_path, truthy_string.
  destruct (envPath options) as [[s|u|]|]; simpl; try reflexivity.
  destruct (decide (s = "")); reflexivity.
Qed.

Lemma single_skipped read parse (options : LoadOptions) (w : world) :
  resolved_path (envPath_of options) = None →
  single read parse options w = (inr [], w).
Proof. intros H. unfold single. rewrite H. reflexivity. Qed.

Lemma export_run_thrown (conf : Config) (e e' : gmap string string) (err : error) :
  export_run conf e = (inl err, e') →
  ∃ k v, (k, v) ∈ conf ∧ (env_name_error k = Some err ∨ env_value_error v = Some err).
Proof.
  unfold export_run. intros H.
  apply run_steps_thrown in H as (l1 & [k v] & l2 & e1 & -> & _ & Hx).
  apply export_try_thrown in Hx as [_ Hx]. exists k, v. split.
  - apply elem_of_app. right. left.
  - destruct Hx as [Hx|[_ Hx]]; [left | right]; exact Hx.
Qed.

Lemma single_result read parse (options : LoadOptions) (p : filepath) (w : world) :
  resolved_path (envPath_of options) = Some p →
  (export options ≠ Some true → (single read parse options w).1 = loadFile read parse p)
  ∧ (∀ conf, (single read parse options w).1 = inr conf →
             loadFile read parse p = inr conf)
  ∧ (∀ e, loadFile read parse p = inl e → (single read parse options w).1 = inl e)
  ∧ (∀ e, (single read parse options w).1 = inl e →
          loadFile read parse p = inl e
          ∨ (export options = Some true
             ∧ ∃ conf k v, loadFile read parse p = inr conf ∧ (k, v) ∈ conf
                           ∧ (env_name_error k = Some e ∨ env_value_error v = Some e))).
Proof.
  intros Hp. unfold single, export_of. rewrite Hp.
  destruct (loadFile read parse p) as [e0|conf].
  { split; [reflexivity|]. split; [discriminate|].
    split; [intros e [= ->]; reflexivity|]. intros e [= ->]. left. reflexivity. }
  destruct (export options) as [[]|]; simpl.
  - destruct (export_run conf (Deno_env w)) as [[e0|[]] env1] eqn:Hrun; simpl.
    + split; [congruence|]. split; [discriminate|]. split; [discriminate|].
      intros e [= ->]. right. split; [reflexivity|].
      destruct (export_run_thrown _ _ _ _ Hrun) as (k & v & Hin & Herr).
      exists conf, k, v. split; [reflexivity|]. split; assumption.
    + split; [congruence|]. split; [intros c [= ->]; reflexivity|].
      split; discriminate.
  - split; [reflexivity|]. split; [intros c [= ->]; reflexivity|]. split; discriminate.
  - split; [reflexivity|]. split; [intros c [= ->]; reflexivity|]. split; discriminate.
Qed.

(** C8 (as the code has it): [loadSync] and [load] read the file named by
    [envPath], which is [".env"] when the field is absent; with [envPath]
    null or the empty string they read nothing, leave the world as it was
    and return the empty mapping.  Without [export: true] they end exactly
    as the file loader does for that path; in every case a mapping they
    return is the file loader's, and a failure of the file loader is
    theirs; with [export: true] the only other way they end is with the
    error [Deno.env] raises for a key or a value of the loaded mapping. *)
Theorem effective_path_and_result
    (readTextFileSync readTextFile : filepath → error + string)
    (parse : string → error + Config) (options : LoadOptions) (w : world) :
  let sync := loadSync readTextFileSync parse options w in
  let async := load readTextFile parse options w in
  match effective_path_claimed options with
  | Some p =>
      (fs_reads sync.2 = fs_reads w ++ [p] ∧ fs_reads async.2 = fs_reads w ++ [p])
      ∧ (export options ≠ Some true →
         sync.1 = loadFile readTextFileSync parse p
         ∧ async.1 = loadFile readTextFile parse p)
      ∧ (∀ conf, (sync.1 = inr conf → loadFile readTextFileSync parse p = inr conf)
                 ∧ (async.1 = inr conf → loadFile readTextFile parse p = inr conf))
      ∧ (∀ e, (loadFile readTextFileSync parse p = inl e → sync.1 = inl e)
              ∧ (loadFile readTextFile parse p = inl e → async.1 = inl e))
      ∧ (∀ e, (sync.1 = inl e →
               loadFile readTextFileSync parse p = inl e
               ∨ (export options = Some true
                  ∧ ∃ conf k v, loadFile readTextFileSync parse p = inr conf
                                ∧ (k, v) ∈ conf
                                ∧ (env_name_error k = Some e
                                   ∨ env_value_error v = Some e)))
              ∧ (async.1 = inl e →
                 loadFile readTextFile parse p = inl e
                 ∨ (export options = Some true
                    ∧ ∃ conf k v, loadFile readTextFile parse p = inr conf
                                  ∧ (k, v) ∈ conf
                                  ∧ (env_name_error k = Some e
                                     ∨ env_value_error v = Some e))))
  | None => sync = (inr [], w) ∧ async = (inr [], w)
  end.
Proof.
  intros sync async. subst sync async.
  rewrite <- resolved_path_claimed, loadSync_single, load_single.
  destruct (resolved_path (envPath_of options)) as [p|] eqn:Hp.
  - destruct (single_result readTextFileSync parse options p w Hp) as (Ha & Hb & Hc & Hd).
    destruct (single_result readTextFile parse options p w Hp) as (Ha' & Hb' & Hc' & Hd').
    rewrite !single_reads, Hp.
    split; [split; reflexivity|]. split; [intros Hex; split; auto|].
    split; [intros conf; split; auto|].
    split; [intros e; split; auto|]. intros e; split; auto.
  - rewrite !single_skipped by exact Hp. split; reflexivity.
Qed.

Lemma effective_path_and_result_witness :
  (loadSync (read_from files_readme) parse_plain (mkLoadOptions None None) world_readme).1
  = loadFile (read_from files_readme) parse_plain (PathString ".env").
Proof.
  refine (proj1 (proj1 (proj2 (effective_path_and_result (read_from files_readme)
                                 (read_from files_readme) parse_plain
                                 (mkLoadOptions None None) world_readme)) _)).
  discriminate.
Defined.

Lemma effective_path_and_result_counterexample :
  ¬ returns_loaded_mapping_claimed (read_from files_nul_value) parse_plain
      export_default (process_start ∅).
Proof.
  unfold returns_loaded_mapping_claimed. intros H. vm_compute in H. discriminate.
Qed.

(** ** Blocking and suspending forms *)

(** C7: over one file system (the asynchronous read resolves to what the
    blocking read returns, and rejects with what it throws), [load] and
    [loadSync] give the same result (mapping or error) and the same world,
    and so do [mod] and [loadEnvSync]: environment, tracking set, console and
    the files read are all equal. *)
Theorem sync_async_agree
    (readTextFileSync readTextFile : filepath → error + string)
    (parse : string → error + Config) :
  (∀ p, readTextFile p = readTextFileSync p) →
  (∀ options w, load readTextFile parse options w
                = loadSync readTextFileSync parse options w)
  ∧ (∀ w, mod_ readTextFile parse w = loadEnvSync readTextFileSync parse w).
Proof.
  intros Hfs.
  assert (Hfile : ∀ p, loadFile readTextFile parse p = loadFile readTextFileSync parse p).
  { intros p. unfold loadFile. rewrite Hfs. reflexivity. }
  split.
  - intros options w. rewrite load_single, loadSync_single. unfold single.
    destruct (resolved_path (envPath_of options)) as [p|]; [|reflexivity].
    rewrite Hfile. reflexivity.
  - intros w. rewrite mod_layered, loadEnvSync_layered. unfold layered.
    rewrite Hfile.
    destruct (loadFile readTextFileSync parse base_path) as [e|base]; [reflexivity|].
    destruct (export_run base (Deno_env w)) as [[e|[]] env1]; [reflexivity|].
    cbv zeta. destruct (indicator w) as [n|]; [|reflexivity].
    rewrite Hfile. reflexivity.
Qed.

Lemma sync_async_agree_witness :
  mod_ (read_from files_readme) parse_plain world_readme
  = loadEnvSync (read_from files_readme) parse_plain world_readme.
Proof.
  refine (proj2 (sync_async_agree (read_from files_readme) (read_from files_readme)
                   parse_plain _) world_readme).
  intros p. reflexivity.
Defined.

(** ** The tracking set as an insertion-ordered set *)

Lemma elem_of_Set_add (k x : string) (s : list string) :
  k ∈ Set_add x s ↔ k = x ∨ k ∈ s.
Proof.
  unfold Set_add. case_decide as Hx.
  - split; [tauto|]. intros [->|H]; assumption.
  - rewrite elem_of_app, list_elem_of_singleton. tauto.
Qed.

Lemma Set_add_member (x : string) (s : list string) : x ∈ s → Set_add x s = s.
Proof. intros H. unfold Set_add. case_decide; [reflexivity | contradiction]. Qed.

Lemma Set_add_prefix (x : string) (s : list string) : s `prefix_of` Set_add x s.
Proof. unfold Set_add. case_decide; [reflexivity | apply prefix_app_r; reflexivity]. Qed.

Lemma elem_of_Set_add_all (k : string) (ks s : list string) :
  k ∈ Set_add_all ks s ↔ k ∈ s ∨ k ∈ ks.
Proof.
  unfold Set_add_all. revert s. induction ks as [|x ks IH]; intros s; simpl.
  - rewrite elem_of_nil. tauto.
  - rewrite IH, elem_of_Set_add, elem_of_cons. tauto.
Qed.

Lemma Set_add_all_members (ks s : list string) :
  (∀ k, k ∈ ks → k ∈ s) → Set_add_all ks s = s.
Proof.
  unfold Set_add_all. revert s. induction ks as [|x ks IH]; intros s H; simpl.
  - reflexivity.
  - rewrite Set_add_member by (apply H; left).
    apply IH. intros k Hk. apply H. right. exact Hk.
Qed.

Lemma Set_add_all_prefix (ks s : list string) : s `prefix_of` Set_add_all ks s.
Proof.
  unfold Set_add_all. revert s. induction ks as [|x ks IH]; intros s; simpl.
  - reflexivity.
  - etrans; [apply (Set_add_prefix x)|apply IH].
Qed.

Lemma prefix_subseteq (s t : list string) : s `prefix_of` t → s ⊆ t.
Proof. intros [r ->] k Hk. apply elem_of_app. left. exact Hk. Qed.

(** ** The overlay loop *)

Lemma Set_has_true (k : string) (s : list string) : Set_has k s = true ↔ k ∈ s.
Proof. unfold Set_has. apply bool_decide_eq_true. Qed.

Lemma truthy_false (x : option string) : truthy x = false ↔ x = None ∨ x = Some "".
Proof.
  destruct x as [s|]; simpl; unfold truthy_string.
  - case_decide as Hs; split; try congruence.
    + intros _. right. congruence.
    + intros [?|[=]]; [discriminate | contradiction].
  - split; [left|]; reflexivity.
Qed.

Lemma overlay_writes_true (k : string) (s : vars) :
  overlay_writes k s = true ↔ k ∈ s.2 ∨ s.1 !! k = None ∨ s.1 !! k = Some "".
Proof.
  unfold overlay_writes.
  rewrite orb_true_iff, Set_has_true, negb_true_iff, truthy_false. reflexivity.
Qed.

Lemma overlay_writes_ext (k : string) (s s' : vars) :
  (k ∈ s'.2 ↔ k ∈ s.2) →
  s'.1 !! k = s.1 !! k →
  overlay_writes k s' = overlay_writes k s.
Proof.
  intros Hset Henv. unfold overlay_writes, Set_has. rewrite Henv.
  f_equal. apply bool_decide_ext, Hset.
Qed.

(** The three ways a turn of the overlay loop ends. *)
Lemma overlay_step_cases (s : vars) (x : string * string) :
  (∃ err, overlay_step s x = (inl err, s))
  ∨ (overlay_step s x = (inr tt, s)
     ∧ (x.1 ∉ s.2) ∧ env_name_error x.1 = None ∧ truthy (s.1 !! x.1) = true)
  ∨ (overlay_step s x = (inr tt, overlay_write s x)
     ∧ overlay_writes x.1 s = true ∧ env_set_error x.1 x.2 = None).
Proof.
  unfold overlay_step, overlay_writes, env_set_error.
  destruct (Set_has x.1 s.2) eqn:Hhas.
  - destruct (env_name_error x.1) as [err|]; [left; eexists; reflexivity|].
    destruct (env_value_error x.2) as [err|]; [left; eexists; reflexivity|].
    right. right. split; [reflexivity|]. split; reflexivity.
  - destruct (env_name_error x.1) as [err|]; [left; eexists; reflexivity|].
    destruct (truthy (s.1 !! x.1)) eqn:Ht.
    + right. left. split; [reflexivity|]. split; [|split; reflexivity].
      intros Hin. apply Set_has_true in Hin. congruence.
    + destruct (env_value_error x.2) as [err|]; [left; eexists; reflexivity|].
      right. right. split; [reflexivity|]. split; reflexivity.
Qed.

Lemma overlay_step_thrown (s s' : vars) (x : string * string) (err : error) :
  overlay_step s x = (inl err, s') → s' = s.
Proof.
  destruct (overlay_step_cases s x) as [[e H]|[(H & _)|(H & _)]]; rewrite H;
    [intros [= _ <-]; reflexivity | discriminate | discriminate].
Qed.

Lemma overlay_step_other (s : vars) (x : string * string) (k : string) :
  x.1 ≠ k →
  (overlay_step s x).2.1 !! k = s.1 !! k
  ∧ (k ∈ (overlay_step s x).2.2 ↔ k ∈ s.2).
Proof.
  intros Hne.
  destruct (overlay_step_cases s x) as [[e H]|[(H & _)|(H & _)]]; rewrite H; simpl;
    [tauto | tauto |].
  rewrite lookup_insert_ne by exact Hne. rewrite elem_of_Set_add.
  split; [reflexivity|]. split; [intros [->|Hk]|]; tauto.
Qed.

Lemma overlay_step_prefix (s : vars) (x : string * string) :
  s.2 `prefix_of` (overlay_step s x).2.2.
Proof.
  destruct (overlay_step_cases s x) as [[e H]|[(H & _)|(H & _)]]; rewrite H; simpl;
    [reflexivity | reflexivity | apply Set_add_prefix].
Qed.

Lemma overlay_step_present (s : vars) (x : string * string) (k : string) :
  is_Some (s.1 !! k) → is_Some ((overlay_step s x).2.1 !! k).
Proof.
  intros Hk.
  destruct (overlay_step_cases s x) as [[e H]|[(H & _)|(H & _)]]; rewrite H; simpl;
    [exact Hk | exact Hk |].
  rewrite lookup_insert. case_decide; [eexists; reflexivity | exact Hk].
Qed.

Lemma overlay_run_prefix (l : Config) (s : vars) :
  s.2 `prefix_of` (overlay_run l s).2.2.
Proof.
  unfold overlay_run. apply (run_steps_invariant overlay_step (λ s', s.2 `prefix_of` s'.2)).
  - intros x s' _ H. etrans; [exact H | apply overlay_step_prefix].
  - reflexivity.
Qed.

Lemma overlay_run_present (l : Config) (s : vars) (k : string) :
  is_Some (s.1 !! k) → is_Some ((overlay_run l s).2.1 !! k).
Proof.
  unfold overlay_run.
  apply (run_steps_invariant overlay_step (λ s', is_Some (s'.1 !! k))).
  intros x s' _. apply overlay_step_present.
Qed.

Lemma overlay_run_untouched (l : Config) (s : vars) (k : string) :
  k ∉ keys l →
  (overlay_run l s).2.1 !! k = s.1 !! k ∧ (k ∈ (overlay_run l s).2.2 ↔ k ∈ s.2).
Proof.
  intros Hk. unfold overlay_run.
  apply (run_steps_invariant overlay_step
           (λ s', s'.1 !! k = s.1 !! k ∧ (k ∈ s'.2 ↔ k ∈ s.2))); [|tauto].
  intros x s' Hx [He Hs].
  destruct (overlay_step_other s' x k) as [He' Hs'].
  { intros Heq. apply Hk. apply list_elem_of_fmap. exists x. split; [congruence | exact Hx]. }
  rewrite He', Hs'. tauto.
Qed.

(** A key the test rejects stays rejected: nothing the loop does to other
    keys changes what the test sees for this one. *)
Lemma overlay_run_skips (l : Config) (s : vars) (k : string) :
  overlay_writes k s = false →
  (overlay_run l s).2.1 !! k = s.1 !! k ∧ (k ∈ (overlay_run l s).2.2 ↔ k ∈ s.2).
Proof.
  intros Hk. unfold overlay_run.
  apply (run_steps_invariant overlay_step
           (λ s', s'.1 !! k = s.1 !! k ∧ (k ∈ s'.2 ↔ k ∈ s.2))); [|tauto].
  intros x s' _ [He Hs].
  assert (Hk' : overlay_writes k s' = false).
  { rewrite (overlay_writes_ext k s s'); assumption. }
  destruct (decide (x.1 = k)) as [Heq|Hne].
  - destruct (overlay_step_cases s' x) as [[e H]|[(H & _)|(H & Hw & _)]]; rewrite H;
      [tauto | tauto |].
    rewrite Heq in Hw. congruence.
  - destruct (overlay_step_other s' x k Hne) as [He' Hs']. rewrite He', Hs'. tauto.
Qed.

Lemma overlay_run_origin (l : Config) (s : vars) (k : string) :
  k ∈ (overlay_run l s).2.2 → k ∈ s.2 ∨ k ∈ keys l.
Proof.
  unfold overlay_run.
  apply (run_steps_invariant overlay_step (λ s', k ∈ s'.2 → k ∈ s.2 ∨ k ∈ keys l));
    [|tauto].
  intros x s' Hx H.
  destruct (overlay_step_cases s' x) as [[e Hc]|[(Hc & _)|(Hc & _)]]; rewrite Hc; simpl;
    [exact H | exact H |].
  rewrite elem_of_Set_add. intros [->|Hk]; [|apply H, Hk].
  right. apply list_elem_of_fmap. exists x. split; [reflexivity | exact Hx].
Qed.

Lemma conf_get_elem_of (l : Config) (k v : string) :
  NoDup (keys l) → (k, v) ∈ l → conf_get l k = Some v.
Proof.
  unfold keys. induction l as [|[k' v'] l IH]; simpl; intros Hnd Hin.
  - apply elem_of_nil in Hin as [].
  - apply NoDup_cons in Hnd as [Hk' Hnd].
    apply elem_of_cons in Hin as [[= -> ->]|Hin].
    + case_decide; [reflexivity | contradiction].
    + case_decide as Heq; [|apply IH; assumption].
      subst k'. exfalso. apply Hk'. apply list_elem_of_fmap.
      exists (k, v). split; [reflexivity | assumption].
Qed.

Lemma conf_get_Some_keys (l : Config) (k v : string) :
  conf_get l k = Some v → k ∈ keys l.
Proof.
  unfold keys. induction l as [|[k' v'] l IH]; simpl; [discriminate|].
  case_decide as Heq.
  - intros _. subst. left.
  - intros H. right. apply IH, H.
Qed.

(** The overlay loop that ran to its end on an object: each key was decided
    once, by what the test saw when the loop started. *)
Lemma overlay_run_lookup (l : Config) (s s' : vars) (k : string) :
  NoDup (keys l) →
  overlay_run l s = (inr tt, s') →
  s'.1 !! k
  = match conf_get l k with
    | Some v => if overlay_writes k s then Some v else s.1 !! k
    | None => s.1 !! k
    end
  ∧ (k ∈ s'.2 ↔ k ∈ s.2 ∨ (k ∈ keys l ∧ overlay_writes k s = true)).
Proof.
  unfold overlay_run, keys. revert s. induction l as [|[k' v'] l IH]; intros s Hnd; simpl.
  - intros [= <-]. rewrite elem_of_nil. tauto.
  - apply NoDup_cons in Hnd as [Hk' Hnd].
    destruct (overlay_step s (k', v')) as [[e|[]] s1] eqn:Hx; [discriminate|].
    intros Hrun. rewrite elem_of_cons. case_decide as Heq.
    + subst k'. pose proof (overlay_run_untouched l s1 k Hk') as [He Hs].
      unfold overlay_run in He, Hs. rewrite Hrun in He, Hs. simpl in He, Hs.
      rewrite He, Hs.
      destruct (overlay_step_cases s (k, v')) as [[e H]|[(H & Hn & _ & Ht)|(H & Hw & _)]];
        rewrite H in Hx; [discriminate| |]; injection Hx as <-; simpl in *.
      * assert (Hw : overlay_writes k s = false).
        { apply not_true_is_false. rewrite overlay_writes_true.
          intros [?|Hf]; [contradiction|]. apply truthy_false in Hf. congruence. }
        rewrite Hw. split; [reflexivity|]. split; [tauto|].
        intros [?|[_ [=]]]. assumption.
      * rewrite Hw, lookup_insert_eq, elem_of_Set_add. split; [reflexivity|].
        split; [|left; reflexivity]. intros _. right. split; [left|]; reflexivity.
    + destruct (IH s1 Hnd Hrun) as [He Hs].
      destruct (overlay_step_other s (k', v') k Heq) as [He' Hs'].
      rewrite Hx in He', Hs'. simpl in He', Hs'.
      rewrite He, Hs, (overlay_writes_ext k s s1), He', Hs' by assumption.
      split; [reflexivity|]. split; [tauto|].
      intros [?|[[->|?] ?]]; [tauto | contradiction | tauto].
Qed.

(** ** Running the overlay loop again *)

Lemma overlay_step_settles (s s' : vars) (x : string * string) :
  overlay_step s x = (inr tt, s') → settled s' x ∧ settled_eq s' x.
Proof.
  destruct (overlay_step_cases s x) as [[e H]|[(H & Hn & Hname & Ht)|(H & Hw & Hset)]];
    rewrite H; [discriminate| |]; intros [= <-].
  - split; right; (split; [exact Hn|]; split; assumption).
  - split; left; simpl.
    + split; [apply elem_of_Set_add; left; reflexivity | exact Hset].
    + split; [apply elem_of_Set_add; left; reflexivity|].
      split; [exact Hset | apply lookup_insert_eq].
Qed.

Lemma settled_step (s : vars) (x y : string * string) :
  settled s x → settled (overlay_step s y).2 x.
Proof.
  intros Hx.
  destruct (overlay_step_cases s y) as [[e H]|[(H & _)|(H & Hw & _)]]; rewrite H;
    [exact Hx | exact Hx |].
  destruct Hx as [[Hin Hok]|(Hn & Hname & Ht)].
  - left. split; [|exact Hok]. simpl. apply elem_of_Set_add. right. exact Hin.
  - assert (Hne : y.1 ≠ x.1).
    { intros Heq. rewrite Heq in Hw. apply overlay_writes_true in Hw.
      destruct Hw as [?|Hf]; [contradiction|]. apply truthy_false in Hf. congruence. }
    right. simpl. rewrite lookup_insert_ne by exact Hne.
    split; [|split; assumption].
    rewrite elem_of_Set_add. intros [Heq|?]; [congruence | contradiction].
Qed.

Lemma settled_eq_step (s : vars) (x y : string * string) :
  y.1 ≠ x.1 → settled_eq s x → settled_eq (overlay_step s y).2 x.
Proof.
  intros Hne Hx.
  destruct (overlay_step_cases s y) as [[e H]|[(H & _)|(H & Hw & _)]]; rewrite H;
    [exact Hx | exact Hx |].
  simpl. unfold settled_eq. simpl. rewrite lookup_insert_ne by exact Hne.
  rewrite elem_of_Set_add.
  destruct Hx as [(Hin & Hok & Hv)|(Hn & Hname & Ht)].
  - left. split; [right; exact Hin|]. split; assumption.
  - right. split; [|split; assumption]. intros [Heq|?]; [congruence | contradiction].
Qed.

Lemma overlay_run_settled (l : Config) (s s' : vars) :
  overlay_run l s = (inr tt, s') → ∀ x, x ∈ l → settled s' x.
Proof.
  unfold overlay_run. revert s. induction l as [|x l IH]; intros s; simpl.
  - intros _ y Hy. apply elem_of_nil in Hy as [].
  - destruct (overlay_step s x) as [[e|[]] s1] eqn:Hx; [discriminate|].
    intros Hrun y Hy. apply elem_of_cons in Hy as [->|Hy]; [|eapply IH; eassumption].
    apply overlay_step_settles in Hx as [Hx _].
    pose proof (run_steps_invariant overlay_step (λ t, settled t x) l s1
                  (λ y t _ Ht, settled_step t x y Ht) Hx) as Hend.
    rewrite Hrun in Hend. exact Hend.
Qed.

Lemma overlay_run_settled_eq (l : Config) (s s' : vars) :
  NoDup (keys l) →
  overlay_run l s = (inr tt, s') → ∀ x, x ∈ l → settled_eq s' x.
Proof.
  unfold overlay_run, keys. revert s. induction l as [|x l IH]; intros s Hnd; simpl.
  - intros _ y Hy. apply elem_of_nil in Hy as [].
  - apply NoDup_cons in Hnd as [Hx' Hnd].
    destruct (overlay_step s x) as [[e|[]] s1] eqn:Hx; [discriminate|].
    intros Hrun y Hy. apply elem_of_cons in Hy as [->|Hy]; [|eapply IH; eassumption].
    apply overlay_step_settles in Hx as [_ Hx].
    assert (Hend : settled_eq (run_steps overlay_step l s1).2 x).
    { apply (run_steps_invariant overlay_step (λ t, settled_eq t x)); [|exact Hx].
      intros y t Hy. apply settled_eq_step. intros Heq. apply Hx'.
      apply list_elem_of_fmap. exists y. split; [congruence | exact Hy]. }
    rewrite Hrun in Hend. exact Hend.
Qed.

(** Entries that are settled pass again: the set stays, and so does the
    table outside the tracked names. *)
Lemma overlay_run_of_settled (l : Config) (s : vars) :
  (∀ x, x ∈ l → settled s x) →
  ∃ s', overlay_run l s = (inr tt, s')
        ∧ s'.2 = s.2
        ∧ ∀ k, k ∉ s.2 → s'.1 !! k = s.1 !! k.
Proof.
  unfold overlay_run. revert s. induction l as [|x l IH]; intros s H; simpl.
  - exists s. split; [reflexivity|]. split; [reflexivity|]. intros; reflexivity.
  - pose proof (H x (list_elem_of_here _ _)) as Hx.
    assert (Hrest : ∀ y, y ∈ l → settled (overlay_step s x).2 y).
    { intros y Hy. apply settled_step, H. right. exact Hy. }
    assert (Hstep : ∃ s1, overlay_step s x = (inr tt, s1) ∧ s1.2 = s.2
                          ∧ ∀ k, k ∉ s.2 → s1.1 !! k = s.1 !! k).
    { unfold overlay_step. destruct Hx as [[Hin Hok]|(Hn & Hname & Ht)].
      - apply Set_has_true in Hin as Hhas. rewrite Hhas, Hok.
        eexists. split; [reflexivity|]. simpl.
        split; [apply Set_add_member, Hin|].
        intros k Hk. apply lookup_insert_ne. intros Heq. apply Hk.
        rewrite <- Heq. exact Hin.
      - assert (Hhas : Set_has x.1 s.2 = false).
        { apply not_true_is_false. rewrite Set_has_true. exact Hn. }
        rewrite Hhas, Hname, Ht. exists s. split; [reflexivity|].
        split; [reflexivity|]. intros; reflexivity. }
    destruct Hstep as (s1 & Hs1 & Hset1 & Henv1). rewrite Hs1 in *. simpl in Hrest.
    destruct (IH s1 Hrest) as (s' & Hrun & Hset & Henv).
    exists s'. split; [exact Hrun|]. split; [congruence|].
    intros k Hk. rewrite Henv by (rewrite Hset1; exact Hk). apply Henv1, Hk.
Qed.

Lemma overlay_run_of_settled_eq (l : Config) (s : vars) :
  (∀ x, x ∈ l → settled_eq s x) → overlay_run l s = (inr tt, s).
Proof.
  unfold overlay_run. induction l as [|x l IH]; intros H; simpl; [reflexivity|].
  assert (Hstep : overlay_step s x = (inr tt, s)).
  { unfold overlay_step, overlay_write.
    destruct (H x (list_elem_of_here _ _)) as [(Hin & Hok & Hv)|(Hn & Hname & Ht)].
    - apply Set_has_true in Hin as Hhas. rewrite Hhas, Hok.
      rewrite (insert_id _ _ _ Hv), (Set_add_member _ _ Hin). destruct s; reflexivity.
    - assert (Hhas : Set_has x.1 s.2 = false).
      { apply not_true_is_false. rewrite Set_has_true. exact Hn. }
      rewrite Hhas, Hname, Ht. reflexivity. }
  rewrite Hstep. apply IH. intros y Hy. apply H. right. exact Hy.
Qed.

(** A turn that throws still throws, with the same error, from a state with
    the same set and the same table outside the tracked names. *)
Lemma overlay_throw_again (s t : vars) (x : string * string) (err : error) :
  overlay_step s x = (inl err, s) →
  t.2 = s.2 →
  (∀ k, k ∉ s.2 → t.1 !! k = s.1 !! k) →
  overlay_step t x = (inl err, t).
Proof.
  unfold overlay_step. intros H Hset Henv. rewrite Hset.
  destruct (Set_has x.1 s.2) eqn:Hhas.
  - destruct (env_set_error x.1 x.2); [|discriminate]. congruence.
  - destruct (env_name_error x.1); [congruence|].
    rewrite Henv by (rewrite <- Set_has_true; congruence).
    destruct (truthy (s.1 !! x.1)); [discriminate|].
    destruct (env_value_error x.2); [congruence | discriminate].
Qed.

(** The overlay loop run again from where it stopped ends the same way with
    the same set. *)
Lemma overlay_run_again (l : Config) (s s' : vars) (o : error + unit) :
  overlay_run l s = (o, s') →
  ∃ s'', overlay_run l s' = (o, s'') ∧ s''.2 = s'.2.
Proof.
  destruct o as [err|[]]; intros Hrun.
  - unfold overlay_run in Hrun.
    apply run_steps_thrown in Hrun as (l1 & x & l2 & s1 & -> & Hl1 & Hx).
    pose proof (overlay_step_thrown _ _ _ _ Hx) as ->.
    destruct (overlay_run_of_settled l1 s1 (overlay_run_settled l1 s s1 Hl1))
      as (s2 & Hl1' & Hset & Henv).
    exists s2. split; [|exact Hset].
    unfold overlay_run in *. rewrite run_steps_app, Hl1'. simpl.
    rewrite (overlay_throw_again s1 s2 x err Hx Hset Henv). reflexivity.
  - destruct (overlay_run_of_settled l s' (overlay_run_settled l s s' Hrun))
      as (s2 & Hrun' & Hset & _).
    exists s2. split; assumption.
Qed.

(** On an object, it also leaves the table as it was. *)
Lemma overlay_run_again_eq (l : Config) (s s' : vars) (o : error + unit) :
  NoDup (keys l) →
  overlay_run l s = (o, s') →
  overlay_run l s' = (o, s').
Proof.
  destruct o as [err|[]]; intros Hnd Hrun.
  - unfold overlay_run in Hrun.
    apply run_steps_thrown in Hrun as (l1 & x & l2 & s1 & -> & Hl1 & Hx).
    pose proof (overlay_step_thrown _ _ _ _ Hx) as ->.
    assert (Hnd1 : NoDup (keys l1)).
    { unfold keys in *. rewrite fmap_app in Hnd. apply NoDup_app in Hnd. tauto. }
    pose proof (overlay_run_of_settled_eq l1 s1
                  (overlay_run_settled_eq l1 s s1 Hnd1 Hl1)) as Hl1'.
    unfold overlay_run in *. rewrite run_steps_app, Hl1'. simpl. rewrite Hx. reflexivity.
  - apply overlay_run_of_settled_eq. eapply overlay_run_settled_eq; eassumption.
Qed.

(** ** Layered loads, case by case *)

Lemma after_base_tracked (base : Config) (w : world) (k : string) :
  k ∈ SET_VARIABLES (after_base base w) ↔ k ∈ SET_VARIABLES w ∨ k ∈ keys base.
Proof. unfold after_base; simpl. apply elem_of_Set_add_all. Qed.

Lemma after_base_env (base : Config) (w : world) (k : string) :
  Deno_env (after_base base w) !! k
  = match Deno_env w !! k with
    | Some v => Some v
    | None => conf_get base k
    end.
Proof. unfold after_base; simpl. apply export_all_lookup. Qed.

Lemma after_base_present (base : Config) (w : world) (k : string) :
  is_Some (Deno_env w !! k) ∨ k ∈ keys base →
  is_Some (Deno_env (after_base base w) !! k).
Proof.
  rewrite after_base_env. intros [[v ->]|Hk]; [eexists; reflexivity|].
  destruct (Deno_env w !! k); [eexists; reflexivity|].
  unfold keys in Hk. induction base as [|[k' v'] base IH]; simpl in *.
  - apply elem_of_nil in Hk as [].
  - case_decide; [eexists; reflexivity|].
    apply elem_of_cons in Hk as [->|Hk]; [contradiction | apply IH, Hk].
Qed.

Lemma after_base_prefix (base : Config) (w : world) :
  SET_VARIABLES w `prefix_of` SET_VARIABLES (after_base base w).
Proof. unfold after_base; simpl. apply Set_add_all_prefix. Qed.

Lemma indicator_Some (w : world) (n : string) :
  Deno_env w !! "NODE_ENV" = Some n → n ≠ "" → indicator w = Some n.
Proof.
  intros H Hn. unfold indicator. rewrite H. unfold truthy_string.
  case_decide; [contradiction | reflexivity].
Qed.

Lemma indicator_None (w : world) :
  indicator w = None
  ↔ Deno_env w !! "NODE_ENV" = None ∨ Deno_env w !! "NODE_ENV" = Some "".
Proof.
  unfold indicator, truthy_string. destruct (Deno_env w !! "NODE_ENV") as [n|].
  - case_decide as Hn.
    + subst n. split; [right|]; reflexivity.
    + split; [discriminate|]. intros [[=]|[=]]. contradiction.
  - split; [left|]; reflexivity.
Qed.

Ltac layered_cases read parse w :=
  unfold layered;
  destruct (loadFile read parse base_path) as [?e|base] eqn:Hbase;
  [| destruct (export_run base (Deno_env w)) as [[?e|[]] env1] eqn:Hexport;
     [| cbv zeta; destruct (indicator w) as [n|] eqn:Hn;
        [ destruct (loadFile read parse (overlay_path n)) as [?e|overlay] eqn:Hoverlay;
          [| destruct (overlay_run overlay (vars_of (after_base base w)))
               as [[?e|[]] s] eqn:Hrun ] |] ] ].

Lemma layered_prefix read parse (w : world) :
  SET_VARIABLES w `prefix_of` SET_VARIABLES (layered read parse w).2.
Proof.
  layered_cases read parse w; simpl; try reflexivity;
    try apply Set_add_all_prefix.
  - pose proof (overlay_run_prefix overlay (vars_of (after_base base w))) as H.
    rewrite Hrun in H. etrans; [apply (after_base_prefix base w) | exact H].
  - pose proof (overlay_run_prefix overlay (vars_of (after_base base w))) as H.
    rewrite Hrun in H. etrans; [apply (after_base_prefix base w) | exact H].
Qed.

Lemma layered_console read parse (w : world) :
  match (layered read parse w).1 with
  | inr _ =>
      console (layered read parse w).2
      = console w ++ [summary (SET_VARIABLES (layered read parse w).2)]
  | inl _ => console (layered read parse w).2 = console w
  end.
Proof. layered_cases read parse w; reflexivity. Qed.

Lemma layered_reads read parse (w : world) :
  fs_reads (layered read parse w).2
  = fs_reads w
    ++ base_path
       :: match (single read parse (mkLoadOptions None (Some true)) w).1, indicator w with
          | inr _, Some n => [overlay_path n]
          | _, _ => []
          end.
Proof.
  rewrite base_step_single.
  layered_cases read parse w; simpl; try reflexivity;
    rewrite <- app_assoc; reflexivity.
Qed.

Lemma layered_present read parse (w : world) (k : string) :
  is_Some (Deno_env w !! k) → is_Some (Deno_env (layered read parse w).2 !! k).
Proof.
  intros [v Hk].
  assert (Hb : ∀ base, is_Some (Deno_env (after_base base w) !! k)).
  { intros base. apply after_base_present. left. exists v. exact Hk. }
  layered_cases read parse w; simpl; try (exists v; exact Hk); try apply Hb.
  - pose proof (export_run_present base (Deno_env w) k v Hk) as H.
    rewrite Hexport in H. exists v. exact H.
  - pose proof (overlay_run_present overlay (vars_of (after_base base w)) k (Hb base)) as H.
    rewrite Hrun in H. exact H.
  - pose proof (overlay_run_present overlay (vars_of (after_base base w)) k (Hb base)) as H.
    rewrite Hrun in H. exact H.
Qed.

Lemma layered_export_thrown read parse (w : world) (base : Config)
    (e : error) (env1 : gmap string string) :
  loadFile read parse base_path = inr base →
  export_run base (Deno_env w) = (inl e, env1) →
  layered read parse w = (inl e, with_env (λ _, env1) (log_read base_path w)).
Proof. unfold layered. intros -> ->. reflexivity. Qed.

Lemma layered_exported read parse (w : world) (base : Config)
    (env1 : gmap string string) :
  loadFile read parse base_path = inr base →
  export_run base (Deno_env w) = (inr tt, env1) →
  layered read parse w = overlay_phase read parse (indicator w) (after_base base w).
Proof.
  unfold layered, overlay_phase. intros -> ->. cbv zeta.
  destruct (indicator w) as [n|]; [|reflexivity].
  destruct (loadFile read parse (overlay_path n)) as [e|overlay]; [reflexivity|].
  destruct (overlay_run overlay (vars_of (after_base base w))) as [[e|[]] s]; reflexivity.
Qed.

Lemma base_step_exported read parse (w : world) (base : Config) :
  (single read parse (mkLoadOptions None (Some true)) w).1 = inr base →
  layered read parse w = overlay_phase read parse (indicator w) (after_base base w).
Proof.
  intros H. apply base_step_returned in H as [Hload Hrun].
  eapply layered_exported; eassumption.
Qed.

(** The overlay phase touches the environment and the set only through the
    overlay loop. *)
Arguments overlay_phase : simpl never.

Lemma overlay_phase_vars read parse (nodeEnv : option string) (w1 : world) :
  match nodeEnv with
  | Some n =>
      match loadFile read parse (overlay_path n) with
      | inr overlay =>
          (overlay_phase read parse nodeEnv w1).1
          = match (overlay_run overlay (vars_of w1)).1 with
            | inl e => inl e
            | inr _ => inr tt
            end
          ∧ Deno_env (overlay_phase read parse nodeEnv w1).2
            = (overlay_run overlay (vars_of w1)).2.1
          ∧ SET_VARIABLES (overlay_phase read parse nodeEnv w1).2
            = (overlay_run overlay (vars_of w1)).2.2
      | inl e =>
          (overlay_phase read parse nodeEnv w1).1 = inl e
          ∧ Deno_env (overlay_phase read parse nodeEnv w1).2 = Deno_env w1
          ∧ SET_VARIABLES (overlay_phase read parse nodeEnv w1).2 = SET_VARIABLES w1
      end
  | None =>
      (overlay_phase read parse nodeEnv w1).1 = inr tt
      ∧ Deno_env (overlay_phase read parse nodeEnv w1).2 = Deno_env w1
      ∧ SET_VARIABLES (overlay_phase read parse nodeEnv w1).2 = SET_VARIABLES w1
  end.
Proof.
  unfold overlay_phase. destruct nodeEnv as [n|]; [|repeat split].
  destruct (loadFile read parse (overlay_path n)) as [e|overlay]; [repeat split|].
  destruct (overlay_run overlay (vars_of w1)) as [[e|[]] s]; repeat split.
Qed.

(** After a base step that returned, a world that kept what the step set
    and tracked goes through the base step again unchanged. *)
Lemma after_base_vars_again (base : Config) (w w1 : world) (env1 : gmap string string) :
  export_run base (Deno_env w) = (inr tt, env1) →
  (∀ k, is_Some (env1 !! k) → is_Some (Deno_env w1 !! k)) →
  (∀ k, k ∈ keys base → k ∈ SET_VARIABLES w1) →
  export_run base (Deno_env w1) = (inr tt, Deno_env w1)
  ∧ vars_of (after_base base w1) = vars_of w1.
Proof.
  intros Hrun Hmore Hkeys.
  pose proof (export_again_after base (Deno_env w) env1 (Deno_env w1) Hrun Hmore) as Hagain.
  split; [exact Hagain|].
  unfold vars_of, after_base; simpl.
  rewrite <- (export_run_returned _ _ _ Hagain), (Set_add_all_members _ _ Hkeys).
  reflexivity.
Qed.

(** The overlay phase entered again from the world it left ends with the
    same set; on an overlay object, it ends the same way with the same
    table. *)
Lemma overlay_phase_again read parse (nodeEnv : option string) (w1 w2 : world) :
  vars_of w2 = vars_of (overlay_phase read parse nodeEnv w1).2 →
  SET_VARIABLES (overlay_phase read parse nodeEnv w2).2 = SET_VARIABLES w2
  ∧ ((∀ n overlay, nodeEnv = Some n →
        loadFile read parse (overlay_path n) = inr overlay → NoDup (keys overlay)) →
     (overlay_phase read parse nodeEnv w2).1 = (overlay_phase read parse nodeEnv w1).1
     ∧ Deno_env (overlay_phase read parse nodeEnv w2).2 = Deno_env w2).
Proof.
  intros Hv.
  pose proof (overlay_phase_vars read parse nodeEnv w1) as H1.
  pose proof (overlay_phase_vars read parse nodeEnv w2) as H2.
  unfold vars_of in Hv. injection Hv as He Hs.
  destruct nodeEnv as [n|].
  - destruct (loadFile read parse (overlay_path n)) as [e|overlay] eqn:Hoverlay.
    + destruct H1 as (-> & _ & _); destruct H2 as (-> & -> & ->).
      split; [reflexivity|]. intros _. split; reflexivity.
    + destruct H1 as (Ho1 & He1 & Hs1). destruct H2 as (Ho2 & He2 & Hs2).
      destruct (overlay_run overlay (vars_of w1)) as [o [e1 t1]] eqn:Hrun.
      cbn [fst snd] in Ho1, He1, Hs1. rewrite He1 in He. rewrite Hs1 in Hs.
      assert (Hw2 : vars_of w2 = (e1, t1)) by (unfold vars_of; congruence).
      rewrite Hw2 in *. split.
      * destruct (overlay_run_again overlay _ _ _ Hrun) as (s2 & Hrun2 & Hset2).
        rewrite Hs2, Hrun2. simpl. rewrite Hset2. simpl. congruence.
      * intros Hnd. specialize (Hnd n overlay eq_refl Hoverlay).
        pose proof (overlay_run_again_eq overlay _ _ _ Hnd Hrun) as Hrun2.
        rewrite Ho1, Ho2, He2, Hrun2. simpl. split; [reflexivity | congruence].
  - destruct H1 as (-> & _ & _); destruct H2 as (-> & -> & ->).
    split; [reflexivity|]. intros _. split; reflexivity.
Qed.

Lemma overlay_phase_keeps read parse (nodeEnv : option string) (w1 : world) :
  SET_VARIABLES w1 `prefix_of` SET_VARIABLES (overlay_phase read parse nodeEnv w1).2
  ∧ ∀ k, is_Some (Deno_env w1 !! k) →
         is_Some (Deno_env (overlay_phase read parse nodeEnv w1).2 !! k).
Proof.
  pose proof (overlay_phase_vars read parse nodeEnv w1) as H.
  destruct nodeEnv as [n|].
  - destruct (loadFile read parse (overlay_path n)) as [e|overlay].
    + destruct H as (_ & -> & ->). split; [reflexivity | tauto].
    + destruct H as (_ & -> & ->). split.
      * apply (overlay_run_prefix overlay (vars_of w1)).
      * intros k. apply (overlay_run_present overlay (vars_of w1)).
  - destruct H as (_ & -> & ->). split; [reflexivity | tauto].
Qed.

(** A layered load called again from the world it left, under the same
    indicator. *)
Lemma layered_again read parse (w : world) :
  indicator (layered read parse w).2 = indicator w →
  SET_VARIABLES (layered read parse (layered read parse w).2).2
  = SET_VARIABLES (layered read parse w).2
  ∧ ((∀ n overlay, indicator w = Some n →
        loadFile read parse (overlay_path n) = inr overlay → NoDup (keys overlay)) →
     (layered read parse (layered read parse w).2).1 = (layered read parse w).1
     ∧ Deno_env (layered read parse (layered read parse w).2).2
       = Deno_env (layered read parse w).2).
Proof.
  intros Hind.
  destruct (loadFile read parse base_path) as [e|base] eqn:Hbase.
  { rewrite (layered_base_failure _ _ w e Hbase).
    rewrite (layered_base_failure _ _ _ e Hbase). split; [reflexivity|].
    intros _. split; reflexivity. }
  destruct (export_run base (Deno_env w)) as [[e|[]] env1] eqn:Hexport.
  { rewrite (layered_export_thrown _ _ w base e env1 Hbase Hexport).
    pose proof (export_run_again base (Deno_env w)) as Hagain.
    rewrite Hexport in Hagain. simpl in Hagain. cbn [fst snd].
    rewrite (layered_export_thrown read parse
               (with_env (λ _, env1) (log_read base_path w)) base e env1 Hbase Hagain).
    split; [reflexivity|]. intros _. split; reflexivity. }
  rewrite (layered_exported _ _ w base env1 Hbase Hexport) in *.
  set (r1 := overlay_phase read parse (indicator w) (after_base base w)) in *.
  destruct (overlay_phase_keeps read parse (indicator w) (after_base base w))
    as [Hprefix Hpresent].
  fold r1 in Hprefix, Hpresent.
  destruct (after_base_vars_again base w r1.2 env1 Hexport) as [Hexport1 Hvars].
  { intros k Hk. apply Hpresent.
    rewrite (export_run_returned _ _ _ Hexport) in Hk. exact Hk. }
  { intros k Hk. eapply prefix_subseteq; [exact Hprefix|].
    apply after_base_tracked. right. exact Hk. }
  rewrite (layered_exported _ _ r1.2 base _ Hbase Hexport1), Hind.
  destruct (overlay_phase_again read parse (indicator w) (after_base base w)
              (after_base base r1.2) Hvars) as [Hset Hrest].
  fold r1 in Hrest. unfold vars_of in Hvars. injection Hvars as He Hs.
  split; [etrans; [exact Hset | exact Hs]|].
  intros Hnd. destruct (Hrest Hnd) as [Ho Henv].
  split; [exact Ho | etrans; [exact Henv | exact He]].
Qed.

(** ** What a layered load leaves for a key *)

Lemma layered_returned_base read parse (w : world) :
  (layered read parse w).1 = inr tt →
  ∃ base, (single read parse (mkLoadOptions None (Some true)) w).1 = inr base.
Proof.
  rewrite base_step_single. unfold layered.
  destruct (loadFile read parse base_path) as [e|base]; [discriminate|].
  destruct (export_run base (Deno_env w)) as [[e|[]] env1]; [discriminate|].
  intros _. exists base. reflexivity.
Qed.

Lemma overlay_phase_unmentioned read parse (nodeEnv : option string) (w1 : world)
    (K : string) :
  (∀ n overlay, nodeEnv = Some n →
     loadFile read parse (overlay_path n) = inr overlay → K ∉ keys overlay) →
  Deno_env (overlay_phase read parse nodeEnv w1).2 !! K = Deno_env w1 !! K
  ∧ (K ∈ SET_VARIABLES (overlay_phase read parse nodeEnv w1).2 ↔ K ∈ SET_VARIABLES w1).
Proof.
  intros HK. pose proof (overlay_phase_vars read parse nodeEnv w1) as H.
  destruct nodeEnv as [n|].
  - destruct (loadFile read parse (overlay_path n)) as [e|overlay] eqn:Hoverlay.
    + destruct H as (_ & -> & ->). split; reflexivity.
    + destruct H as (_ & -> & ->).
      apply (overlay_run_untouched overlay (vars_of w1) K), (HK n overlay eq_refl Hoverlay).
  - destruct H as (_ & -> & ->). split; reflexivity.
Qed.

Lemma layered_unmentioned read parse (w : world) (base : Config) (K : string) :
  (single read parse (mkLoadOptions None (Some true)) w).1 = inr base →
  (∀ n overlay, indicator w = Some n →
     loadFile read parse (overlay_path n) = inr overlay → K ∉ keys overlay) →
  Deno_env (layered read parse w).2 !! K
  = match Deno_env w !! K with
    | Some V => Some V
    | None => conf_get base K
    end
  ∧ (K ∈ SET_VARIABLES (layered read parse w).2 ↔ K ∈ SET_VARIABLES w ∨ K ∈ keys base).
Proof.
  intros Hbase HK. rewrite (base_step_exported _ _ _ _ Hbase).
  destruct (overlay_phase_unmentioned read parse (indicator w) (after_base base w) K HK)
    as [-> Hiff].
  split; [apply after_base_env | rewrite Hiff; apply after_base_tracked].
Qed.

(** With an overlay object, a layered load that returns decided every key
    of the overlay by the test on the world the base step left. *)
Lemma overlay_phase_lookup read parse (n : string) (overlay : Config) (w1 : world)
    (K : string) :
  loadFile read parse (overlay_path n) = inr overlay →
  NoDup (keys overlay) →
  (overlay_phase read parse (Some n) w1).1 = inr tt →
  Deno_env (overlay_phase read parse (Some n) w1).2 !! K
  = match conf_get overlay K with
    | Some v => if overlay_writes K (vars_of w1) then Some v else Deno_env w1 !! K
    | None => Deno_env w1 !! K
    end
  ∧ (K ∈ SET_VARIABLES (overlay_phase read parse (Some n) w1).2
     ↔ K ∈ SET_VARIABLES w1 ∨ (K ∈ keys overlay ∧ overlay_writes K (vars_of w1) = true)).
Proof.
  intros Hoverlay Hnd.
  pose proof (overlay_phase_vars read parse (Some n) w1) as H.
  cbv beta iota in H. rewrite Hoverlay in H. destruct H as (-> & -> & ->).
  destruct (overlay_run overlay (vars_of w1)) as [[e|[]] s] eqn:Hrun;
    cbn [fst snd]; [discriminate|].
  intros _. exact (overlay_run_lookup overlay (vars_of w1) s K Hnd Hrun).
Qed.

Lemma layered_returned_lookup read parse (w : world) (n : string)
    (overlay : Config) (K : string) :
  indicator w = Some n →
  loadFile read parse (overlay_path n) = inr overlay →
  NoDup (keys overlay) →
  (layered read parse w).1 = inr tt →
  ∃ base,
    (single read parse (mkLoadOptions None (Some true)) w).1 = inr base
    ∧ Deno_env (layered read parse w).2 !! K
      = match conf_get overlay K with
        | Some v => if overlay_writes K (vars_of (after_base base w)) then Some v
                    else Deno_env (after_base base w) !! K
        | None => Deno_env (after_base base w) !! K
        end
    ∧ (K ∈ SET_VARIABLES (layered read parse w).2
       ↔ K ∈ SET_VARIABLES (after_base base w)
         ∨ (K ∈ keys overlay ∧ overlay_writes K (vars_of (after_base base w)) = true))
    ∧ ∀ k, k ∈ keys base → k ∈ SET_VARIABLES (layered read parse w).2.
Proof.
  intros Hn Hoverlay Hnd Hret.
  destruct (layered_returned_base _ _ _ Hret) as [base Hstep].
  exists base. split; [exact Hstep|].
  rewrite (base_step_exported _ _ _ _ Hstep), Hn in *.
  destruct (overlay_phase_lookup read parse n overlay (after_base base w) K
              Hoverlay Hnd Hret) as [Hv Ht].
  split; [exact Hv|]. split; [exact Ht|].
  intros k Hk.
  eapply prefix_subseteq; [apply (overlay_phase_keeps read parse (Some n))|].
  apply after_base_tracked. right. exact Hk.
Qed.

Lemma overlay_writes_tracked (k : string) (w : world) :
  k ∈ SET_VARIABLES w → overlay_writes k (vars_of w) = true.
Proof. intros H. apply overlay_writes_true. left. exact H. Qed.

Lemma overlay_writes_empty (k : string) (w : world) :
  Deno_env w !! k = Some "" → overlay_writes k (vars_of w) = true.
Proof. intros H. apply overlay_writes_true. right. right. exact H. Qed.

Lemma layered_is_either read parse (w : world) (r : (error + unit) * world) :
  r = loadEnvSync read parse w ∨ r = mod_ read parse w → r = layered read parse w.
Proof. intros [-> | ->]; [apply loadEnvSync_layered | apply mod_layered]. Qed.

(** ** C1: the overlay test and a variable exported empty *)

(** C1 (where the code departs from it): [EXT] is exported by the shell
    with an empty value, so it is present in the environment; it is not
    tracked and the base file (there is none) does not name it; the overlay
    file has [EXT=overlay].  The claim keeps the external value; the overlay
    loop of [loadEnvSync] and of [mod] overwrites it and tracks the key,
    because its test is [!Deno.env.get(key)] where the export loop tests
    [Deno.env.get(key) !== undefined]. *)
Theorem empty_external_is_overwritten :
  let w := world_empty_external in
  let sync := loadEnvSync (read_from files_overlay_only) parse_plain w in
  let async := mod_ (read_from files_overlay_only) parse_plain w in
  (Deno_env w !! "EXT" = Some ""
   ∧ ("EXT" ∉ SET_VARIABLES w)
   ∧ loadFile (read_from files_overlay_only) parse_plain base_path = inr []
   ∧ loadFile (read_from files_overlay_only) parse_plain (overlay_path "development")
     = inr [("EXT", "overlay")])
  ∧ (sync.1 = inr tt
     ∧ Deno_env sync.2 !! "EXT" = Some "overlay"
     ∧ "EXT" ∈ SET_VARIABLES sync.2)
  ∧ (async.1 = inr tt
     ∧ Deno_env async.2 !! "EXT" = Some "overlay"
     ∧ "EXT" ∈ SET_VARIABLES async.2)
  ∧ Deno_env (loadSync (read_from files_overlay_only) parse_plain
                (mkLoadOptions (Some (EnvPathString ".env.development")) (Some true))
                w).2 !! "EXT" = Some ""
  ∧ ¬ overlay_rule_claimed w ("EXT", "overlay")
  ∧ ¬ overlay_keeps_external_claimed (read_from files_overlay_only) parse_plain w "EXT".
Proof.
  cbv zeta. split; [|split; [|split; [|split; [|split]]]].
  - split; [vm_compute; reflexivity|]. split; [by_computation|].
    split; vm_compute; reflexivity.
  - split; [vm_compute; reflexivity|]. split; [vm_compute; reflexivity | by_computation].
  - split; [vm_compute; reflexivity|]. split; [vm_compute; reflexivity | by_computation].
  - vm_compute. reflexivity.
  - unfold overlay_rule_claimed. case_decide as H.
    + exfalso. destruct H as [H|H].
      * vm_compute in H. apply elem_of_nil in H. exact H.
      * vm_compute in H. discriminate.
    + intros Heq. apply (f_equal (λ w, Deno_env w !! "EXT")) in Heq.
      vm_compute in Heq. discriminate.
  - intros H. specialize (H "" [] eq_refl (not_elem_of_nil _) eq_refl (not_elem_of_nil _)).
    vm_compute in H. discriminate.
Qed.

(** ** C3: the overlay wins over the base file *)

(** C3 (as the code has it): the overlay of a call is the file named after
    the value [NODE_ENV] has when the call starts.  When that value is set
    and not empty, both files load and the call returns, a key that the base
    mapping and the overlay mapping both have, and that the environment did
    not have before, reads the overlay's value after [loadEnvSync] and after
    [mod]; every key of the base mapping is in the tracking set afterwards,
    written by the base export or not. *)
Theorem overlay_wins_over_base
    (read : filepath → error + string) (parse : string → error + Config)
    (w : world) (n : string) (base overlay : Config) (K v : string) :
  Deno_env w !! "NODE_ENV" = Some n →
  n ≠ "" →
  loadFile read parse base_path = inr base →
  loadFile read parse (overlay_path n) = inr overlay →
  NoDup (keys overlay) →
  K ∈ keys base →
  (K, v) ∈ overlay →
  Deno_env w !! K = None →
  ∀ r, r = loadEnvSync read parse w ∨ r = mod_ read parse w →
  r.1 = inr tt →
  Deno_env r.2 !! K = Some v
  ∧ ∀ k, k ∈ keys base → k ∈ SET_VARIABLES r.2.
Proof.
  intros Hn Hne Hbase Hoverlay Hnd HKb HKo HK r Hr Hret.
  apply layered_is_either in Hr as ->.
  pose proof (indicator_Some w n Hn Hne) as Hind.
  destruct (layered_returned_lookup read parse w n overlay K Hind Hoverlay Hnd Hret)
    as (base' & Hstep & Hv & _ & Hkeys).
  assert (base' = base) as ->.
  { apply base_step_returned in Hstep as [Hb _]. congruence. }
  split; [|exact Hkeys].
  rewrite Hv, (conf_get_elem_of _ _ _ Hnd HKo), overlay_writes_tracked; [reflexivity|].
  apply after_base_tracked. right. exact HKb.
Qed.

Lemma overlay_wins_over_base_witness :
  Deno_env (loadEnvSync (read_from files_readme) parse_plain world_readme).2
    !! "DATABASE_URL" = Some "postgres://localhost/myapp_dev".
Proof.
  refine (proj1 (overlay_wins_over_base (read_from files_readme) parse_plain world_readme
                   "development"
                   [("DATABASE_URL", "postgres://localhost/myapp"); ("LOG_LEVEL", "info")]
                   [("DATABASE_URL", "postgres://localhost/myapp_dev"); ("DEBUG", "true")]
                   "DATABASE_URL" "postgres://localhost/myapp_dev" _ _ _ _ _ _ _ _
                   _ (or_introl eq_refl) _)).
  - vm_compute. reflexivity.
  - discriminate.
  - vm_compute. reflexivity.
  - vm_compute. reflexivity.
  - by_computation.
  - by_computation.
  - by_computation.
  - vm_compute. reflexivity.
  - vm_compute. reflexivity.
Defined.

Lemma overlay_wins_over_base_counterexample :
  ¬ overlay_wins_claimed (read_from files_indicator_in_base) parse_plain
      (process_start ∅)
  ∧ ¬ overlay_wins_claimed (read_from files_nul_both) parse_plain world_readme.
Proof.
  split.
  - intros H.
    specialize (H "development" [("NODE_ENV", "development"); ("BASE", "1")]
                  [("DEBUG", "true"); ("BASE", "2")] "BASE" "2").
    assert (Hv : Deno_env (loadEnvSync (read_from files_indicator_in_base) parse_plain
                             (process_start ∅)).2 !! "BASE" = Some "2").
    { apply H.
      - vm_compute. reflexivity.
      - discriminate.
      - vm_compute. reflexivity.
      - vm_compute. reflexivity.
      - by_computation.
      - by_computation.
      - vm_compute. reflexivity. }
    vm_compute in Hv. discriminate.
  - intros H.
    specialize (H "development" [("K", "1")] [("K", "x" +:+ String NUL "y")]
                  "K" ("x" +:+ String NUL "y")).
    assert (Hv : Deno_env (loadEnvSync (read_from files_nul_both) parse_plain
                             world_readme).2 !! "K" = Some ("x" +:+ String NUL "y")).
    { apply H.
      - vm_compute. reflexivity.
      - discriminate.
      - vm_compute. reflexivity.
      - vm_compute. reflexivity.
      - by_computation.
      - by_computation.
      - vm_compute. reflexivity. }
    vm_compute in Hv. discriminate.
Qed.

(** ** C10: the empty string is present for one loop and unset for the other *)

(** C10 (as the code has it): a variable whose value in the environment is
    the empty string is present for the export loop of [loadSync]/[load],
    which leaves it empty, and unset for the overlay loop of
    [loadEnvSync]/[mod]: a turn of that loop on the key is the write itself,
    tracked before or not.  It overwrites the variable with the overlay's
    value and adds the key to the tracking set when [Deno.env] accepts the
    pair, and throws the [TypeError] of [Deno.env] with nothing written or
    tracked when it does not.  A layered load that returns and whose overlay
    has the key leaves the overlay's value in the variable and the key
    tracked. *)
Theorem empty_value_asymmetry
    (read : filepath → error + string) (parse : string → error + Config)
    (w : world) (K : string) :
  Deno_env w !! K = Some "" →
  (∀ options, export options = Some true →
     Deno_env (loadSync read parse options w).2 !! K = Some ""
     ∧ Deno_env (load read parse options w).2 !! K = Some "")
  ∧ (∀ v, overlay_entry (K, v) w
          = match env_set_error K v with
            | Some e => (inl e, w)
            | None => (inr tt, with_set (Set_add K) (with_env <[K := v]> w))
            end)
  ∧ (∀ n overlay v,
       Deno_env w !! "NODE_ENV" = Some n →
       n ≠ "" →
       loadFile read parse (overlay_path n) = inr overlay →
       NoDup (keys overlay) →
       (K, v) ∈ overlay →
       ∀ r, r = loadEnvSync read parse w ∨ r = mod_ read parse w →
       r.1 = inr tt →
       Deno_env r.2 !! K = Some v ∧ K ∈ SET_VARIABLES r.2).
Proof.
  intros HK. split; [|split].
  - intros options _. rewrite loadSync_single, load_single.
    split; apply single_env_present, HK.
  - intros v. rewrite overlay_entry_step.
    unfold overlay_step, vars_of, env_set_error. cbn [fst snd]. rewrite HK.
    destruct (Set_has K (SET_VARIABLES w)); destruct (env_name_error K);
      destruct (env_value_error v); destruct w; reflexivity.
  - intros n overlay v Hn Hne Hoverlay Hnd HKo r Hr Hret.
    apply layered_is_either in Hr as ->.
    pose proof (indicator_Some w n Hn Hne) as Hind.
    destruct (layered_returned_lookup read parse w n overlay K Hind Hoverlay Hnd Hret)
      as (base & Hstep & Hv & Ht & _).
    assert (Hw : overlay_writes K (vars_of (after_base base w)) = true).
    { apply overlay_writes_empty. rewrite after_base_env, HK. reflexivity. }
    split.
    + rewrite Hv, (conf_get_elem_of _ _ _ Hnd HKo), Hw. reflexivity.
    + apply Ht. right. split; [|exact Hw].
      apply list_elem_of_fmap. exists (K, v). split; [reflexivity | exact HKo].
Qed.

Lemma empty_value_asymmetry_witness :
  Deno_env (loadSync (read_from files_overlay_only) parse_plain
              (mkLoadOptions (Some (EnvPathString ".env.development")) (Some true))
              world_empty_external).2 !! "EXT" = Some ""
  ∧ Deno_env (loadEnvSync (read_from files_overlay_only) parse_plain
                world_empty_external).2 !! "EXT" = Some "overlay"
  ∧ ("EXT" ∉ SET_VARIABLES world_empty_external)
  ∧ "EXT" ∈ SET_VARIABLES (loadEnvSync (read_from files_overlay_only) parse_plain
                             world_empty_external).2.
Proof.
  assert (HK : Deno_env world_empty_external !! "EXT" = Some "")
    by (vm_compute; reflexivity).
  pose proof (empty_value_asymmetry (read_from files_overlay_only) parse_plain
                world_empty_external "EXT" HK) as (Hexport & _ & Hlayered).
  assert (Hcall : Deno_env (loadEnvSync (read_from files_overlay_only) parse_plain
                              world_empty_external).2 !! "EXT" = Some "overlay"
                  ∧ "EXT" ∈ SET_VARIABLES (loadEnvSync (read_from files_overlay_only)
                                             parse_plain world_empty_external).2).
  { refine (Hlayered "development" [("EXT", "overlay")] "overlay" _ _ _ _ _
              _ (or_introl eq_refl) _).
    - vm_compute. reflexivity.
    - discriminate.
    - vm_compute. reflexivity.
    - by_computation.
    - by_computation.
    - vm_compute. reflexivity. }
  split; [|split; [|split]].
  - apply Hexport. reflexivity.
  - exact (proj1 Hcall).
  - apply not_elem_of_nil.
  - exact (proj2 Hcall).
Defined.

Lemma empty_value_asymmetry_counterexample :
  ¬ empty_counts_as_unset_claimed (read_from files_nul_overlay) parse_plain
      world_empty_external "EXT".
Proof.
  intros H.
  destruct (H "development" [("EXT", "x" +:+ String NUL "y")]
              ("x" +:+ String NUL "y")) as [Hv _].
  - vm_compute. reflexivity.
  - vm_compute. reflexivity.
  - discriminate.
  - vm_compute. reflexivity.
  - vm_compute. reflexivity.
  - vm_compute in Hv. discriminate.
Qed.

(** ** C4: when the indicator is read *)

(** C4 (as the code has it): a layered load reads [NODE_ENV] once, when the
    call starts and before the base file is loaded.  If the variable is absent
    or empty then, the base file is the only file the call reads, whatever
    the base file says about [NODE_ENV]; if it holds a non-empty [n] then and
    the base load of the call returns, the call reads [.env] and then
    [.env.n], and no other file; if the base load throws, [.env] is the only
    file read. *)
Theorem indicator_read_at_start
    (read : filepath → error + string) (parse : string → error + Config) (w : world) :
  (Deno_env w !! "NODE_ENV" = None ∨ Deno_env w !! "NODE_ENV" = Some "" →
     fs_reads (loadEnvSync read parse w).2 = fs_reads w ++ [PathString ".env"]
     ∧ fs_reads (mod_ read parse w).2 = fs_reads w ++ [PathString ".env"])
  ∧ (∀ n base,
       Deno_env w !! "NODE_ENV" = Some n →
       n ≠ "" →
       ((loadSync read parse (mkLoadOptions None (Some true)) w).1 = inr base →
        fs_reads (loadEnvSync read parse w).2
        = fs_reads w ++ [PathString ".env"; PathString (".env." +:+ n)])
       ∧ ((load read parse (mkLoadOptions None (Some true)) w).1 = inr base →
          fs_reads (mod_ read parse w).2
          = fs_reads w ++ [PathString ".env"; PathString (".env." +:+ n)]))
  ∧ (∀ e,
       ((loadSync read parse (mkLoadOptions None (Some true)) w).1 = inl e →
        fs_reads (loadEnvSync read parse w).2 = fs_reads w ++ [PathString ".env"])
       ∧ ((load read parse (mkLoadOptions None (Some true)) w).1 = inl e →
          fs_reads (mod_ read parse w).2 = fs_reads w ++ [PathString ".env"])).
Proof.
  rewrite loadEnvSync_layered, mod_layered, loadSync_single, load_single.
  rewrite layered_reads. split; [|split].
  - intros Hn. apply indicator_None in Hn. rewrite Hn.
    destruct (single read parse (mkLoadOptions None (Some true)) w).1;
      split; reflexivity.
  - intros n base Hn Hne. rewrite (indicator_Some w n Hn Hne).
    split; intros ->; reflexivity.
  - intros e. split; intros ->; reflexivity.
Qed.

Lemma indicator_read_at_start_witness :
  fs_reads (loadEnvSync (read_from files_indicator_in_base) parse_plain
              (process_start ∅)).2 = [PathString ".env"]
  ∧ fs_reads (loadEnvSync (read_from files_readme) parse_plain world_readme).2
    = [PathString ".env"; PathString ".env.development"].
Proof.
  split.
  - refine (proj1 (proj1 (indicator_read_at_start (read_from files_indicator_in_base)
                            parse_plain (process_start ∅)) _)).
    left. vm_compute. reflexivity.
  - refine (proj1 (proj1 (proj2 (indicator_read_at_start (read_from files_readme)
                                   parse_plain world_readme)) "development"
                     [("DATABASE_URL", "postgres://localhost/myapp"); ("LOG_LEVEL", "info")]
                     _ _) _).
    + vm_compute. reflexivity.
    + discriminate.
    + vm_compute. reflexivity.
Defined.

Lemma indicator_read_at_start_counterexample :
  ¬ indicator_after_base_claimed (read_from files_indicator_in_base) parse_plain
      (process_start ∅).
Proof.
  intros H.
  specialize (H [("NODE_ENV", "development"); ("BASE", "1")] "development").
  assert (Hin : overlay_path "development"
                ∈ fs_reads (loadEnvSync (read_from files_indicator_in_base) parse_plain
                              (process_start ∅)).2).
  { apply H.
    - vm_compute. reflexivity.
    - vm_compute. reflexivity.
    - vm_compute. reflexivity.
    - discriminate. }
  vm_compute in Hin.
  apply list_elem_of_singleton in Hin. discriminate.
Qed.

(** ** C6: the tracking set only grows *)

Lemma run_call_prefix rs rf parse (w : world) (c : call) :
  SET_VARIABLES w `prefix_of` SET_VARIABLES (run_call rs rf parse w c).
Proof.
  destruct c as [options|options| | |key value|key]; simpl.
  - rewrite loadSync_single, (proj1 (single_frame _ _ _ _)). reflexivity.
  - rewrite load_single, (proj1 (single_frame _ _ _ _)). reflexivity.
  - rewrite loadEnvSync_layered. apply layered_prefix.
  - rewrite mod_layered. apply layered_prefix.
  - reflexivity.
  - reflexivity.
Qed.

Lemma run_calls_prefix rs rf parse (cs : list call) (w : world) :
  SET_VARIABLES w `prefix_of` SET_VARIABLES (run_calls rs rf parse w cs).
Proof.
  unfold run_calls. revert w. induction cs as [|c cs IH]; intros w; simpl.
  - reflexivity.
  - etrans; [apply (run_call_prefix rs rf parse w c) | apply IH].
Qed.

(** C6 (as the code has it): the tracking set is empty when the process
    starts; [loadSync] and [load] leave it as it is; [loadEnvSync] and [mod]
    only add to it; so after any sequence of operations (loads, and outside
    code changing the environment) it contains what it contained after any
    prefix of the sequence.  Calling a layered load again leaves it equal when
    the indicator the second call starts with is the one the first call
    started with. *)
Theorem tracking_set_grows
    (readTextFileSync readTextFile : filepath → error + string)
    (parse : string → error + Config) :
  (∀ e, SET_VARIABLES (process_start e) = [])
  ∧ (∀ w options,
       SET_VARIABLES (loadSync readTextFileSync parse options w).2 = SET_VARIABLES w
       ∧ SET_VARIABLES (load readTextFile parse options w).2 = SET_VARIABLES w)
  ∧ (∀ w,
       SET_VARIABLES w ⊆ SET_VARIABLES (loadEnvSync readTextFileSync parse w).2
       ∧ SET_VARIABLES w ⊆ SET_VARIABLES (mod_ readTextFile parse w).2)
  ∧ (∀ w pre post,
       SET_VARIABLES (run_calls readTextFileSync readTextFile parse w pre)
       ⊆ SET_VARIABLES (run_calls readTextFileSync readTextFile parse w (pre ++ post)))
  ∧ (∀ w,
       let w1 := (loadEnvSync readTextFileSync parse w).2 in
       indicator w1 = indicator w →
       SET_VARIABLES (loadEnvSync readTextFileSync parse w1).2 = SET_VARIABLES w1)
  ∧ (∀ w,
       let w1 := (mod_ readTextFile parse w).2 in
       indicator w1 = indicator w →
       SET_VARIABLES (mod_ readTextFile parse w1).2 = SET_VARIABLES w1).
Proof.
  split; [reflexivity|]. split; [|split; [|split; [|split]]].
  - intros w options. rewrite loadSync_single, load_single.
    split; apply single_frame.
  - intros w. rewrite loadEnvSync_layered, mod_layered.
    split; apply prefix_subseteq, layered_prefix.
  - intros w pre post. unfold run_calls. rewrite foldl_app.
    apply prefix_subseteq, run_calls_prefix.
  - intros w. cbv zeta. rewrite !loadEnvSync_layered.
    intros Hind. apply (proj1 (layered_again _ _ _ Hind)).
  - intros w. cbv zeta. rewrite !mod_layered.
    intros Hind. apply (proj1 (layered_again _ _ _ Hind)).
Qed.

Lemma tracking_set_grows_witness :
  SET_VARIABLES
    (loadEnvSync (read_from files_readme) parse_plain
       (loadEnvSync (read_from files_readme) parse_plain world_readme).2).2
  = SET_VARIABLES (loadEnvSync (read_from files_readme) parse_plain world_readme).2.
Proof.
  refine (proj1 (proj2 (proj2 (proj2 (proj2 (tracking_set_grows (read_from files_readme)
            (read_from files_readme) parse_plain))))) world_readme _).
  vm_compute. reflexivity.
Defined.

Lemma tracking_set_grows_counterexample :
  ¬ reinvoke_equal_claimed (read_from files_indicator_in_base) parse_plain
      (process_start ∅).
Proof.
  unfold reinvoke_equal_claimed. intros H. vm_compute in H. discriminate.
Qed.

(** ** C9: the summary line *)

(** C9 (as the code has it): a layered load that returns has appended
    exactly one line to the console, ["Hydrated environment variables: "]
    followed by the members of the whole tracking set as the call leaves it,
    in insertion order, joined with [", "]; the members the set had before
    the call come first, in their old order.  A layered load that throws has
    logged nothing. *)
Theorem summary_line
    (read : filepath → error + string) (parse : string → error + Config)
    (w : world) (r : (error + unit) * world) :
  r = loadEnvSync read parse w ∨ r = mod_ read parse w →
  match r.1 with
  | inr _ =>
      console r.2
      = console w
        ++ ["Hydrated environment variables: " +:+ join ", " (SET_VARIABLES r.2)]
  | inl _ => console r.2 = console w
  end
  ∧ SET_VARIABLES w `prefix_of` SET_VARIABLES r.2.
Proof.
  intros Hr. apply layered_is_either in Hr as ->.
  split; [apply layered_console | apply layered_prefix].
Qed.

Lemma summary_line_witness :
  console (loadEnvSync (read_from files_readme) parse_plain world_readme).2
  = console world_readme
    ++ ["Hydrated environment variables: "
        +:+ join ", " (SET_VARIABLES (loadEnvSync (read_from files_readme) parse_plain
                                       world_readme).2)].
Proof.
  exact (proj1 (summary_line (read_from files_readme) parse_plain world_readme
                  (loadEnvSync (read_from files_readme) parse_plain world_readme)
                  (or_introl eq_refl))).
Defined.

Example readme_console :
  console (loadEnvSync (read_from files_readme) parse_plain world_readme).2
  = ["Hydrated environment variables: DATABASE_URL, LOG_LEVEL, DEBUG"].
Proof. vm_compute. reflexivity. Qed.

Lemma summary_line_counterexample :
  ¬ one_summary_claimed (read_from files_base_is_directory) parse_plain
      (process_start ∅).
Proof.
  unfold one_summary_claimed. intros H. vm_compute in H. discriminate.
Qed.

(** ** The scenarios of the specification, run *)

Example scenario_A :
  Deno_env (loadEnvSync (read_from files_base_only) parse_plain (process_start ∅)).2
  = {[ "DATABASE_URL" := "postgres://localhost/myapp"; "LOG_LEVEL" := "info" ]}.
Proof. by_computation. Qed.

Example scenario_B :
  Deno_env (mod_ (read_from files_readme) parse_plain world_readme).2
  = {[ "NODE_ENV" := "development";
       "DATABASE_URL" := "postgres://localhost/myapp_dev";
       "LOG_LEVEL" := "info";
       "DEBUG" := "true" ]}.
Proof. by_computation. Qed.

Example scenario_C :
  Deno_env (loadEnvSync (read_from files_readme) parse_plain
              world_operator_log_level).2 !! "LOG_LEVEL" = Some "trace".
Proof. vm_compute. reflexivity. Qed.

Example scenario_D :
  let r := load (read_from files_custom) parse_plain
             (mkLoadOptions (Some (EnvPathString "custom.env")) (Some true))
             (process_start ∅) in
  r.1 = inr [("EMPTY_VAR", "")] ∧ Deno_env r.2 !! "EMPTY_VAR" = Some "".
Proof. vm_compute. split; reflexivity. Qed.

(** A base file that names the environment selects the overlay of the next
    call, not of its own. *)
Example indicator_from_base_two_calls :
  let w1 := (loadEnvSync (read_from files_indicator_in_base) parse_plain
               (process_start ∅)).2 in
  let w2 := (loadEnvSync (read_from files_indicator_in_base) parse_plain w1).2 in
  (Deno_env w1 !! "NODE_ENV", Deno_env w1 !! "DEBUG", SET_VARIABLES w1, fs_reads w1)
  = (Some "development", None, ["NODE_ENV"; "BASE"], [PathString ".env"])
  ∧ (Deno_env w2 !! "DEBUG", Deno_env w2 !! "BASE", SET_VARIABLES w2)
    = (Some "true", Some "2", ["NODE_ENV"; "BASE"; "DEBUG"]).
Proof. vm_compute. split; reflexivity. Qed.

(** A value [Deno.env] refuses aborts the call where it is met: nothing is
    tracked and nothing is logged. *)
Example nul_value_aborts :
  let r := loadEnvSync (read_from files_nul_value) parse_plain (process_start ∅) in
  r.1 = inl (TypeError ("Value contains invalid characters: x" +:+ String NUL "y"))
  ∧ Deno_env r.2 !! "B" = None
  ∧ SET_VARIABLES r.2 = []
  ∧ console r.2 = [].
Proof. vm_compute. repeat split. Qed.

(** ** [utils.ts] *)

Lemma lower_ascii_idemp (c : Ascii.ascii) : lower_ascii (lower_ascii c) = lower_ascii c.
Proof. destruct c as [[] [] [] [] [] [] [] []]; vm_compute; reflexivity. Qed.

Lemma toLowerCase_idemp (s : string) : toLowerCase (toLowerCase s) = toLowerCase s.
Proof.
  induction s as [|c s IH]; simpl; [reflexivity|].
  rewrite lower_ascii_idemp, IH. reflexivity.
Qed.

Lemma toLowerCase_length (s : string) : String.length (toLowerCase s) = String.length s.
Proof. induction s as [|c s IH]; simpl; [reflexivity|]. rewrite IH. reflexivity. Qed.

Lemma lower_ascii_flip_case (c : Ascii.ascii) : lower_ascii (flip_case c) = lower_ascii c.
Proof. destruct c as [[] [] [] [] [] [] [] []]; vm_compute; reflexivity. Qed.

Lemma differ_in_case_lower (s t : string) :
  differ_in_case s t = true → toLowerCase s = toLowerCase t.
Proof.
  revert t. induction s as [|a s IH]; intros [|b t]; simpl; try discriminate;
    [reflexivity|].
  rewrite andb_true_iff, orb_true_iff. intros [Hab Hst].
  rewrite (IH t Hst). f_equal.
  destruct Hab as [H|H]; apply Ascii.eqb_eq in H; subst;
    [reflexivity | symmetry; apply lower_ascii_flip_case].
Qed.

(** X1: [isTruthyString] does not see the case of letters: two strings of
    one length that, place by place, hold the same character or the same
    letter in its two cases get the same answer. *)
Theorem isTruthyString_case_insensitive (s t : string) :
  differ_in_case s t = true → isTruthyString s = isTruthyString t.
Proof.
  intros H. apply differ_in_case_lower in H.
  unfold isTruthyString. rewrite H. reflexivity.
Qed.

Lemma isTruthyString_case_insensitive_witness :
  isTruthyString "EnAbLeD" = isTruthyString "enabled".
Proof. apply isTruthyString_case_insensitive. vm_compute. reflexivity. Defined.

Lemma letter_or_one_lower (c : Ascii.ascii) :
  letter_or_one (lower_ascii c) = true → letter_or_one c = true.
Proof. destruct c as [[] [] [] [] [] [] [] []]; vm_compute; congruence. Qed.

Lemma all_chars_lower (s : string) :
  all_chars letter_or_one (toLowerCase s) = true → all_chars letter_or_one s = true.
Proof.
  induction s as [|c s IH]; simpl; [reflexivity|].
  rewrite !andb_true_iff. intros [Hc Hs].
  split; [apply letter_or_one_lower, Hc | apply IH, Hs].
Qed.

(** X2: [isTruthyString] does no trimming and no partial matching: a string
    it accepts has at most seven characters, each a letter or the digit 1;
    so a value with a space, a quote or a line end in it is not truthy. *)
Theorem isTruthyString_shape (s : string) :
  isTruthyString s = true →
  (String.length s ≤ 7)%nat ∧ all_chars letter_or_one s = true.
Proof.
  unfold isTruthyString. rewrite bool_decide_eq_true. intros H.
  assert (Hlow : (String.length (toLowerCase s) ≤ 7)%nat
                 ∧ all_chars letter_or_one (toLowerCase s) = true).
  { unfold TRUTHY_VALUES in H.
    repeat (apply elem_of_cons in H as [->|H]; [vm_compute; split; [lia|reflexivity]|]).
    apply elem_of_nil in H as []. }
  destruct Hlow as [Hlen Hall]. rewrite toLowerCase_length in Hlen.
  split; [exact Hlen | apply all_chars_lower, Hall].
Qed.

Lemma isTruthyString_shape_witness :
  (String.length "Yes" ≤ 7)%nat ∧ all_chars letter_or_one "Yes" = true.
Proof. apply isTruthyString_shape. vm_compute. reflexivity. Defined.

Lemma isEnvVarTruthy_run (key : string) (w : world) :
  isEnvVarTruthy key w
  = (match env_name_error key with
     | Some e => inl e
     | None => inr match Deno_env w !! key with
                   | Some value => isTruthyString value
                   | None => false
                   end
     end, w).
Proof.
  unfold isEnvVarTruthy, bind, env_get, ret, isTruthyString.
  destruct (env_name_error key); [reflexivity|].
  destruct (Deno_env w !! key) as [value|]; simpl.
  - rewrite toLowerCase_idemp. reflexivity.
  - reflexivity.
Qed.

(** X3: [isEnvVarTruthy] changes nothing.  For a name [Deno.env.get]
    refuses (empty, or with ['='] or NUL in it) it throws that [TypeError];
    for any other name its answer is [isTruthyString] of the variable's value
    as it stands (lowercasing twice changes nothing), and [false] for a
    variable that is unset or empty. *)
Theorem isEnvVarTruthy_answer (key : string) (w : world) :
  isEnvVarTruthy key w
  = (match env_name_error key with
     | Some e => inl e
     | None => inr match Deno_env w !! key with
                   | Some value => isTruthyString value
                   | None => false
                   end
     end, w)
  ∧ (env_name_error key = None →
     Deno_env w !! key = None ∨ Deno_env w !! key = Some "" →
     (isEnvVarTruthy key w).1 = inr false).
Proof.
  split; [apply isEnvVarTruthy_run|].
  rewrite isEnvVarTruthy_run. intros -> [-> | ->]; reflexivity.
Qed.

Lemma isEnvVarTruthy_answer_witness :
  (isEnvVarTruthy "NONEXISTENT" world_readme).1 = inr false.
Proof.
  apply (proj2 (isEnvVarTruthy_answer "NONEXISTENT" world_readme)).
  - vm_compute. reflexivity.
  - left. vm_compute. reflexivity.
Defined.

(** ** Single-file loads *)

Lemma single_without_export read parse (options : LoadOptions) (w : world) :
  export_of options = false →
  Deno_env (single read parse options w).2 = Deno_env w.
Proof.
  intros Hex. unfold single. rewrite Hex.
  destruct (resolved_path (envPath_of options)) as [p|]; [|reflexivity].
  destruct (loadFile read parse p); reflexivity.
Qed.

(** X4: without [export: true] (absent or [false]), [loadSync] and [load]
    leave the environment, the tracking set and the console as they were,
    whatever the file holds and whether they return or throw. *)
Theorem load_without_export_is_pure
    (readTextFileSync readTextFile : filepath → error + string)
    (parse : string → error + Config) (options : LoadOptions) (w : world) :
  export options = None ∨ export options = Some false →
  ∀ w', w' = (loadSync readTextFileSync parse options w).2
        ∨ w' = (load readTextFile parse options w).2 →
  Deno_env w' = Deno_env w
  ∧ SET_VARIABLES w' = SET_VARIABLES w
  ∧ console w' = console w.
Proof.
  intros Hex w' Hw'.
  assert (Hoff : export_of options = false).
  { unfold export_of. destruct Hex as [-> | ->]; reflexivity. }
  destruct Hw' as [-> | ->]; [rewrite loadSync_single | rewrite load_single];
    (split; [apply single_without_export, Hoff | apply single_frame]).
Qed.

Lemma load_without_export_is_pure_witness :
  Deno_env (loadSync (read_from files_readme) parse_plain (mkLoadOptions None None)
              world_readme).2 = Deno_env world_readme.
Proof.
  refine (proj1 (load_without_export_is_pure (read_from files_readme)
                   (read_from files_readme) parse_plain (mkLoadOptions None None)
                   world_readme _ _ _)).
  - left. reflexivity.
  - left. reflexivity.
Defined.

Lemma single_twice read parse (options : LoadOptions) (w : world) :
  (single read parse options (single read parse options w).2).1
  = (single read parse options w).1
  ∧ Deno_env (single read parse options (single read parse options w).2).2
    = Deno_env (single read parse options w).2.
Proof.
  unfold single.
  destruct (resolved_path (envPath_of options)) as [p|]; [|split; reflexivity].
  destruct (loadFile read parse p) as [e|conf]; [split; reflexivity|].
  destruct (export_of options); [|split; reflexivity].
  pose proof (export_run_again conf (Deno_env w)) as Hagain.
  destruct (export_run conf (Deno_env w)) as [[e|[]] env1]; cbn [fst snd] in *;
    change (Deno_env (with_env (λ _, env1) (log_read p w))) with env1;
    rewrite Hagain; split; reflexivity.
Qed.

(** X5: loading the same file a second time, with the same options, returns
    what the first load returned and leaves the environment as the first load
    left it: the export of [loadSync] and of [load] is idempotent. *)
Theorem load_twice
    (readTextFileSync readTextFile : filepath → error + string)
    (parse : string → error + Config) (options : LoadOptions) (w : world) :
  let sync1 := loadSync readTextFileSync parse options w in
  let sync2 := loadSync readTextFileSync parse options sync1.2 in
  let async1 := load readTextFile parse options w in
  let async2 := load readTextFile parse options async1.2 in
  (sync2.1 = sync1.1 ∧ Deno_env sync2.2 = Deno_env sync1.2)
  ∧ (async2.1 = async1.1 ∧ Deno_env async2.2 = Deno_env async1.2).
Proof.
  cbv zeta. split.
  - rewrite (loadSync_single readTextFileSync parse options w).
    rewrite loadSync_single. apply single_twice.
  - rewrite (load_single readTextFile parse options w).
    rewrite load_single. apply single_twice.
Qed.

(** X6: no load of this module unsets a variable: a variable the
    environment has before [loadSync], [load], [loadEnvSync] or [mod] is
    still there afterwards, whether the call returns or throws. *)
Theorem loads_never_unset
    (readTextFileSync readTextFile : filepath → error + string)
    (parse : string → error + Config) (w : world) (c : call) (k : string) :
  is_load c = true →
  is_Some (Deno_env w !! k) →
  is_Some (Deno_env (run_call readTextFileSync readTextFile parse w c) !! k).
Proof.
  intros Hc [v Hk]. destruct c as [options|options| | |key value|key];
    try discriminate; simpl.
  - rewrite loadSync_single. exists v. apply single_env_present, Hk.
  - rewrite load_single. exists v. apply single_env_present, Hk.
  - rewrite loadEnvSync_layered. apply layered_present. exists v. exact Hk.
  - rewrite mod_layered. apply layered_present. exists v. exact Hk.
Qed.

Lemma loads_never_unset_witness :
  is_Some (Deno_env (run_call (read_from files_readme) (read_from files_readme)
                       parse_plain world_readme CallMod) !! "NODE_ENV").
Proof.
  apply loads_never_unset; [reflexivity|]. vm_compute. eexists. reflexivity.
Defined.

(** X16: after [loadSync] or [load] with [export: true] has returned a
    mapping, [isEnvVarTruthy] of a name [Deno.env.get] accepts answers, for
    a variable the environment lacked, with [isTruthyString] of the file's
    value (false when the file has no such key), and for a variable the
    environment had with [isTruthyString] of that earlier value, whatever
    the file says; for a name [Deno.env.get] refuses it throws. *)
Theorem flag_after_export
    (readTextFileSync readTextFile : filepath → error + string)
    (parse : string → error + Config) (options : LoadOptions) (w : world)
    (conf : Config) (K : string) :
  export options = Some true →
  ∀ r, r = loadSync readTextFileSync parse options w
       ∨ r = load readTextFile parse options w →
  r.1 = inr conf →
  (isEnvVarTruthy K r.2).1
  = match env_name_error K with
    | Some e => inl e
    | None =>
        inr match Deno_env w !! K with
            | Some V => isTruthyString V
            | None => match conf_get conf K with
                      | Some v => isTruthyString v
                      | None => false
                      end
            end
    end.
Proof.
  intros Hex r Hr Hres.
  assert (Hr' : ∃ read, r = single read parse options w).
  { destruct Hr as [-> | ->]; eexists; [apply loadSync_single | apply load_single]. }
  destruct Hr' as [read ->].
  rewrite isEnvVarTruthy_run; cbn [fst].
  rewrite (single_exported read parse options w conf Hex Hres K).
  destruct (env_name_error K); [reflexivity|].
  destruct (Deno_env w !! K); [reflexivity|].
  destruct (conf_get conf K); reflexivity.
Qed.

Lemma flag_after_export_witness :
  (isEnvVarTruthy "DEBUG"
     (loadSync (read_from files_flags) parse_plain export_default (process_start ∅)).2).1
  = inr true.
Proof.
  exact (flag_after_export (read_from files_flags) (read_from files_flags) parse_plain
           export_default (process_start ∅) [("DEBUG", "TRUE"); ("CACHE", "off")] "DEBUG"
           eq_refl _ (or_introl eq_refl) eq_refl).
Defined.


(** ** Layered loads: keys outside the overlay, keys the module manages *)

(** X7: when the base load of the call returns, a key the overlay of the
    call does not mention (or any key, when no overlay is read) ends a
    layered load as the base export leaves it, whether the call then returns
    or throws: with the value it had when it had one, else with the base
    file's value when the base file has the key, else unset; and it is
    tracked afterwards exactly when it was tracked before or the base file
    has it.  The base load is [loadSync] for [loadEnvSync] and [load] for
    [mod]. *)
Theorem key_outside_overlay
    (read : filepath → error + string) (parse : string → error + Config)
    (w : world) (base : Config) (K : string) :
  (∀ n overlay, indicator w = Some n →
     loadFile read parse (overlay_path n) = inr overlay → K ∉ keys overlay) →
  ∀ r0 w',
    (r0 = loadSync read parse (mkLoadOptions None (Some true)) w
     ∧ w' = (loadEnvSync read parse w).2)
    ∨ (r0 = load read parse (mkLoadOptions None (Some true)) w
       ∧ w' = (mod_ read parse w).2) →
    r0.1 = inr base →
    Deno_env w' !! K
    = match Deno_env w !! K with
      | Some V => Some V
      | None => conf_get base K
      end
    ∧ (K ∈ SET_VARIABLES w' ↔ K ∈ SET_VARIABLES w ∨ K ∈ keys base).
Proof.
  intros HK r0 w' Hr.
  assert (r0 = single read parse (mkLoadOptions None (Some true)) w
          ∧ w' = (layered read parse w).2) as [-> ->].
  { destruct Hr as [[-> ->] | [-> ->]].
    - rewrite loadSync_single, loadEnvSync_layered. split; reflexivity.
    - rewrite load_single, mod_layered. split; reflexivity. }
  intros Hbase. apply layered_unmentioned; assumption.
Qed.

Lemma key_outside_overlay_witness :
  Deno_env (loadEnvSync (read_from files_readme) parse_plain world_readme).2 !! "LOG_LEVEL"
  = Some "info".
Proof.
  refine (proj1 (key_outside_overlay (read_from files_readme) parse_plain world_readme
                   [("DATABASE_URL", "postgres://localhost/myapp"); ("LOG_LEVEL", "info")]
                   "LOG_LEVEL" _ _ _ (or_introl (conj eq_refl eq_refl)) _)).
  - intros n overlay Hn. vm_compute in Hn. injection Hn as <-.
    intros Hoverlay. vm_compute in Hoverlay. injection Hoverlay as <-.
    by_computation.
  - vm_compute. reflexivity.
Defined.

(** X8: when the overlay of the call is read and has the key, and the call
    returns, a key that is tracked already or that the base file names has
    the overlay's value whatever the environment held for it: also a value
    set from outside the module. *)
Theorem overlay_overrides_managed_key
    (read : filepath → error + string) (parse : string → error + Config)
    (w : world) (n : string) (base overlay : Config) (K v : string) :
  Deno_env w !! "NODE_ENV" = Some n →
  n ≠ "" →
  loadFile read parse base_path = inr base →
  loadFile read parse (overlay_path n) = inr overlay →
  NoDup (keys overlay) →
  (K, v) ∈ overlay →
  K ∈ SET_VARIABLES w ∨ K ∈ keys base →
  ∀ r, r = loadEnvSync read parse w ∨ r = mod_ read parse w →
  r.1 = inr tt →
  Deno_env r.2 !! K = Some v.
Proof.
  intros Hn Hne Hbase Hoverlay Hnd HKo HK r Hr Hret.
  apply layered_is_either in Hr as ->.
  pose proof (indicator_Some w n Hn Hne) as Hind.
  destruct (layered_returned_lookup read parse w n overlay K Hind Hoverlay Hnd Hret)
    as (base' & Hstep & Hv & _ & _).
  assert (base' = base) as ->.
  { apply base_step_returned in Hstep as [Hb _]. congruence. }
  rewrite Hv, (conf_get_elem_of _ _ _ Hnd HKo), overlay_writes_tracked; [reflexivity|].
  apply after_base_tracked. exact HK.
Qed.

Lemma overlay_overrides_managed_key_witness :
  Deno_env (loadEnvSync (read_from files_indicator_in_base) parse_plain
              (process_start {[ "NODE_ENV" := "development"; "BASE" := "outside" ]})).2
    !! "BASE" = Some "2".
Proof.
  refine (overlay_overrides_managed_key (read_from files_indicator_in_base)
            parse_plain _ "development"
            [("NODE_ENV", "development"); ("BASE", "1")]
            [("DEBUG", "true"); ("BASE", "2")] "BASE" "2" _ _ _ _ _ _ _
            _ (or_introl eq_refl) _).
  - vm_compute. reflexivity.
  - discriminate.
  - vm_compute. reflexivity.
  - vm_compute. reflexivity.
  - by_computation.
  - by_computation.
  - right. by_computation.
  - vm_compute. reflexivity.
Defined.

(** ** What the tracking set holds *)

Lemma overlay_phase_origin read parse (nodeEnv : option string) (w1 : world) (K : string) :
  K ∈ SET_VARIABLES (overlay_phase read parse nodeEnv w1).2 →
  K ∈ SET_VARIABLES w1
  ∨ ∃ n overlay, nodeEnv = Some n
                 ∧ loadFile read parse (overlay_path n) = inr overlay
                 ∧ K ∈ keys overlay.
Proof.
  pose proof (overlay_phase_vars read parse nodeEnv w1) as H.
  destruct nodeEnv as [n|].
  - destruct (loadFile read parse (overlay_path n)) as [e|overlay] eqn:Hoverlay.
    + destruct H as (_ & _ & ->). tauto.
    + destruct H as (_ & _ & ->). intros HK.
      apply overlay_run_origin in HK as [HK|HK]; [left; exact HK|].
      right. exists n, overlay. split; [reflexivity|]. split; [exact Hoverlay | exact HK].
  - destruct H as (_ & _ & ->). tauto.
Qed.

Lemma layered_tracked_origin read parse (w : world) (K : string) :
  K ∈ SET_VARIABLES (layered read parse w).2 →
  K ∈ SET_VARIABLES w
  ∨ (∃ base, loadFile read parse base_path = inr base ∧ K ∈ keys base)
  ∨ (∃ n overlay, indicator w = Some n
                  ∧ loadFile read parse (overlay_path n) = inr overlay
                  ∧ K ∈ keys overlay).
Proof.
  destruct (loadFile read parse base_path) as [e|base] eqn:Hbase.
  { rewrite (layered_base_failure _ _ w e Hbase). tauto. }
  destruct (export_run base (Deno_env w)) as [[e|[]] env1] eqn:Hexport.
  { rewrite (layered_export_thrown _ _ w base e env1 Hbase Hexport). tauto. }
  rewrite (layered_exported _ _ w base env1 Hbase Hexport). intros HK.
  apply overlay_phase_origin in HK as [HK|HK]; [|right; right; exact HK].
  apply after_base_tracked in HK as [HK|HK]; [left; exact HK|].
  right. left. exists base. split; [reflexivity | exact HK].
Qed.

(** X9: a layered load puts into the tracking set only names it read from
    the base file or from the overlay file of the call: a name tracked
    afterwards was tracked before, or is a key of one of the two mappings. *)
Theorem tracked_names_come_from_files
    (read : filepath → error + string) (parse : string → error + Config)
    (w w' : world) (K : string) :
  w' = (loadEnvSync read parse w).2 ∨ w' = (mod_ read parse w).2 →
  K ∈ SET_VARIABLES w' →
  K ∈ SET_VARIABLES w
  ∨ (∃ base, loadFile read parse base_path = inr base ∧ K ∈ keys base)
  ∨ (∃ n overlay, indicator w = Some n
                  ∧ loadFile read parse (overlay_path n) = inr overlay
                  ∧ K ∈ keys overlay).
Proof.
  intros Hw'.
  assert (w' = (layered read parse w).2) as ->.
  { destruct Hw' as [-> | ->]; [rewrite loadEnvSync_layered | rewrite mod_layered];
      reflexivity. }
  apply layered_tracked_origin.
Qed.

Lemma tracked_names_come_from_files_witness :
  "DEBUG" ∈ SET_VARIABLES world_readme
  ∨ (∃ base, loadFile (read_from files_readme) parse_plain base_path = inr base
             ∧ "DEBUG" ∈ keys base)
  ∨ (∃ n overlay, indicator world_readme = Some n
                  ∧ loadFile (read_from files_readme) parse_plain (overlay_path n)
                    = inr overlay
                  ∧ "DEBUG" ∈ keys overlay).
Proof.
  apply (tracked_names_come_from_files (read_from files_readme) parse_plain world_readme
           (loadEnvSync (read_from files_readme) parse_plain world_readme).2 "DEBUG").
  - left. reflexivity.
  - by_computation.
Defined.

Lemma overlay_step_tracked_are_set (s : vars) (x : string * string) :
  (∀ k, k ∈ s.2 → is_Some (s.1 !! k)) →
  ∀ k, k ∈ (overlay_step s x).2.2 → is_Some ((overlay_step s x).2.1 !! k).
Proof.
  intros H k.
  destruct (overlay_step_cases s x) as [[err ->]|[[-> _]|[-> _]]]; cbn [fst snd];
    [apply H | apply H |].
  unfold overlay_write; cbn [fst snd].
  rewrite elem_of_Set_add, lookup_insert. intros [-> | Hk].
  - case_decide; [eexists; reflexivity | contradiction].
  - case_decide; [eexists; reflexivity | apply H, Hk].
Qed.

Lemma overlay_run_tracked_are_set (l : Config) (s : vars) :
  (∀ k, k ∈ s.2 → is_Some (s.1 !! k)) →
  ∀ k, k ∈ (overlay_run l s).2.2 → is_Some ((overlay_run l s).2.1 !! k).
Proof.
  intros H. unfold overlay_run.
  apply (run_steps_invariant overlay_step (λ s, ∀ k, k ∈ s.2 → is_Some (s.1 !! k)));
    [|exact H].
  intros x s' _. apply overlay_step_tracked_are_set.
Qed.

Lemma overlay_phase_tracked_are_set read parse (nodeEnv : option string) (w1 : world) :
  tracked_are_set w1 → tracked_are_set (overlay_phase read parse nodeEnv w1).2.
Proof.
  intros Hw1 k. pose proof (overlay_phase_vars read parse nodeEnv w1) as H.
  destruct nodeEnv as [n|].
  - destruct (loadFile read parse (overlay_path n)) as [e|overlay].
    + destruct H as (_ & -> & ->). apply Hw1.
    + destruct H as (_ & -> & ->).
      apply (overlay_run_tracked_are_set overlay (vars_of w1)). exact Hw1.
  - destruct H as (_ & -> & ->). apply Hw1.
Qed.

Lemma layered_tracked_are_set read parse (w : world) :
  tracked_are_set w → tracked_are_set (layered read parse w).2.
Proof.
  intros H.
  destruct (loadFile read parse base_path) as [e|base] eqn:Hbase.
  { rewrite (layered_base_failure _ _ w e Hbase). exact H. }
  destruct (export_run base (Deno_env w)) as [[e|[]] env1] eqn:Hexport.
  { rewrite (layered_export_thrown _ _ w base e env1 Hbase Hexport).
    intros k Hk. destruct (H k Hk) as [v Hv]. exists v.
    pose proof (export_run_present base (Deno_env w) k v Hv) as Hp.
    rewrite Hexport in Hp. exact Hp. }
  rewrite (layered_exported _ _ w base env1 Hbase Hexport).
  apply overlay_phase_tracked_are_set.
  intros k Hk. apply after_base_tracked in Hk. apply after_base_present.
  destruct Hk as [Hk|Hk]; [left; apply H, Hk | right; exact Hk].
Qed.

Lemma run_call_tracked_are_set rs rf parse (w : world) (c : call) :
  deletes c = false →
  tracked_are_set w → tracked_are_set (run_call rs rf parse w c).
Proof.
  intros Hc H. destruct c as [options|options| | |key value|key];
    try discriminate; simpl.
  - rewrite loadSync_single. intros k. rewrite (proj1 (single_frame _ _ _ _)).
    intros Hk. destruct (H k Hk) as [v Hv]. exists v. apply single_env_present, Hv.
  - rewrite load_single. intros k. rewrite (proj1 (single_frame _ _ _ _)).
    intros Hk. destruct (H k Hk) as [v Hv]. exists v. apply single_env_present, Hv.
  - rewrite loadEnvSync_layered. apply layered_tracked_are_set, H.
  - rewrite mod_layered. apply layered_tracked_are_set, H.
  - intros k Hk. simpl. rewrite lookup_insert.
    case_decide; [eexists; reflexivity | apply H, Hk].
Qed.

(** X10: as long as nothing deletes a variable, every name in the tracking
    set is a variable of the environment: from the start of the process,
    after any sequence of loads and of variables set from outside. *)
Theorem tracked_names_are_set
    (readTextFileSync readTextFile : filepath → error + string)
    (parse : string → error + Config) (e : gmap string string) (cs : list call) :
  Forall (λ c, deletes c = false) cs →
  tracked_are_set (run_calls readTextFileSync readTextFile parse (process_start e) cs).
Proof.
  unfold run_calls.
  assert (H : tracked_are_set (process_start e)).
  { intros k Hk. apply elem_of_nil in Hk as []. }
  revert H. generalize (process_start e).
  induction cs as [|c cs IH]; intros w H Hcs; simpl; [exact H|].
  apply Forall_cons in Hcs as [Hc Hcs].
  apply IH; [|exact Hcs]. apply run_call_tracked_are_set; assumption.
Qed.

Lemma tracked_names_are_set_witness :
  tracked_are_set
    (run_calls (read_from files_readme) (read_from files_readme) parse_plain
       (process_start ∅)
       [CallLoadEnvSync; OutsideSet "NODE_ENV" "development"; CallMod]).
Proof.
  apply tracked_names_are_set. repeat constructor.
Defined.

(** ** Calling a layered load again *)

(** X11: a layered load called again over the same files, starting with the
    indicator the first call started with, ends as the first call ended
    (returns, or throws the same error) and leaves the environment and the
    tracking set exactly as the first call left them. *)
Theorem layered_load_twice
    (read : filepath → error + string) (parse : string → error + Config) (w : world) :
  (∀ n overlay, indicator w = Some n →
     loadFile read parse (overlay_path n) = inr overlay → NoDup (keys overlay)) →
  (let r1 := loadEnvSync read parse w in
   let r2 := loadEnvSync read parse r1.2 in
   indicator r1.2 = indicator w →
   r2.1 = r1.1 ∧ Deno_env r2.2 = Deno_env r1.2
   ∧ SET_VARIABLES r2.2 = SET_VARIABLES r1.2)
  ∧ (let r1 := mod_ read parse w in
     let r2 := mod_ read parse r1.2 in
     indicator r1.2 = indicator w →
     r2.1 = r1.1 ∧ Deno_env r2.2 = Deno_env r1.2
     ∧ SET_VARIABLES r2.2 = SET_VARIABLES r1.2).
Proof.
  intros Hnd. cbv zeta. split.
  - rewrite (loadEnvSync_layered read parse w). rewrite loadEnvSync_layered.
    intros Hind. destruct (layered_again read parse w Hind) as [Hset Hrest].
    destruct (Hrest Hnd) as [H1 H2].
    split; [exact H1|]. split; [exact H2 | exact Hset].
  - rewrite (mod_layered read parse w). rewrite mod_layered.
    intros Hind. destruct (layered_again read parse w Hind) as [Hset Hrest].
    destruct (Hrest Hnd) as [H1 H2].
    split; [exact H1|]. split; [exact H2 | exact Hset].
Qed.

Lemma layered_load_twice_witness :
  Deno_env (loadEnvSync (read_from files_readme) parse_plain
              (loadEnvSync (read_from files_readme) parse_plain world_readme).2).2
  = Deno_env (loadEnvSync (read_from files_readme) parse_plain world_readme).2.
Proof.
  refine (proj1 (proj2 (proj1 (layered_load_twice (read_from files_readme) parse_plain
                                 world_readme _) _))).
  - intros n overlay Hn. vm_compute in Hn. injection Hn as <-.
    intros Hoverlay. vm_compute in Hoverlay. injection Hoverlay as <-.
    by_computation.
  - vm_compute. reflexivity.
Defined.

(** ** Missing files and the first summary *)

Lemma layered_nothing_to_load read parse (w : world) :
  loadFile read parse base_path = inr [] →
  (indicator w = None
   ∨ ∃ n, indicator w = Some n ∧ loadFile read parse (overlay_path n) = inr []) →
  (layered read parse w).1 = inr tt
  ∧ Deno_env (layered read parse w).2 = Deno_env w
  ∧ SET_VARIABLES (layered read parse w).2 = SET_VARIABLES w
  ∧ console (layered read parse w).2 = console w ++ [summary (SET_VARIABLES w)].
Proof.
  intros Hbase Hover. unfold layered. rewrite Hbase. cbn [export_run run_steps].
  cbv zeta. destruct Hover as [-> | (n & -> & ->)]; cbn; repeat split.
Qed.

(** X12: when the base file does not exist and the overlay is not asked for
    (no indicator) or does not exist either, a layered load still returns
    normally: it changes neither the environment nor the tracking set and
    logs the summary of the set as it stands. *)
Theorem layered_load_without_files
    (read : filepath → error + string) (parse : string → error + Config)
    (w : world) (e : error) :
  read base_path = inl e →
  is_NotFound e = true →
  (indicator w = None
   ∨ ∃ n e', indicator w = Some n ∧ read (overlay_path n) = inl e'
             ∧ is_NotFound e' = true) →
  ∀ r, r = loadEnvSync read parse w ∨ r = mod_ read parse w →
  r.1 = inr tt
  ∧ Deno_env r.2 = Deno_env w
  ∧ SET_VARIABLES r.2 = SET_VARIABLES w
  ∧ console r.2
    = console w ++ ["Hydrated environment variables: " +:+ join ", " (SET_VARIABLES w)].
Proof.
  intros Hread He Hover r Hr. apply layered_is_either in Hr as ->.
  apply layered_nothing_to_load.
  - eapply loadFile_missing; eassumption.
  - destruct Hover as [Hn|(n & e' & Hn & Hread' & He')]; [left; exact Hn|].
    right. exists n. split; [exact Hn|]. eapply loadFile_missing; eassumption.
Qed.

Lemma layered_load_without_files_witness :
  Deno_env (loadEnvSync (read_from []) parse_plain world_readme).2 = Deno_env world_readme.
Proof.
  refine (proj1 (proj2 (layered_load_without_files (read_from []) parse_plain world_readme
                          (NotFound "No such file or directory (os error 2)") _ _ _
                          _ (or_introl eq_refl)))).
  - reflexivity.
  - reflexivity.
  - right. exists "development", (NotFound "No such file or directory (os error 2)").
    split; [vm_compute; reflexivity|]. split; reflexivity.
Defined.

Lemma Set_add_all_fresh (ks s : list string) :
  NoDup (s ++ ks) → Set_add_all ks s = s ++ ks.
Proof.
  unfold Set_add_all. revert s. induction ks as [|x ks IH]; intros s Hnd; simpl.
  - rewrite app_nil_r. reflexivity.
  - assert (Hx : x ∉ s).
    { apply NoDup_app in Hnd as (_ & Hdisj & _). intros Hin.
      apply (Hdisj x Hin). left. }
    unfold Set_add at 2. case_decide; [contradiction|].
    rewrite IH; rewrite <- app_assoc; [reflexivity | exact Hnd].
Qed.

(** X13: the first layered load of a process, with no indicator, whose
    base load returns, logs every key of the base file, in the file's order:
    also the keys the base export did not write because the environment had
    them already.  The base load is [loadSync] for [loadEnvSync] and [load]
    for [mod]. *)
Theorem first_summary_lists_base_keys
    (read : filepath → error + string) (parse : string → error + Config)
    (w : world) (base : Config) :
  SET_VARIABLES w = [] →
  Deno_env w !! "NODE_ENV" = None ∨ Deno_env w !! "NODE_ENV" = Some "" →
  NoDup (keys base) →
  ∀ r0 r,
    (r0 = loadSync read parse (mkLoadOptions None (Some true)) w
     ∧ r = loadEnvSync read parse w)
    ∨ (r0 = load read parse (mkLoadOptions None (Some true)) w
       ∧ r = mod_ read parse w) →
    r0.1 = inr base →
    r.1 = inr tt
    ∧ console r.2
      = console w ++ ["Hydrated environment variables: " +:+ join ", " (keys base)].
Proof.
  intros Hset Hn Hnd r0 r Hr.
  assert (r0 = single read parse (mkLoadOptions None (Some true)) w
          ∧ r = layered read parse w) as [-> ->].
  { destruct Hr as [[-> ->] | [-> ->]].
    - rewrite loadSync_single, loadEnvSync_layered. split; reflexivity.
    - rewrite load_single, mod_layered. split; reflexivity. }
  intros Hbase. apply indicator_None in Hn.
  rewrite (base_step_exported _ _ _ _ Hbase), Hn. unfold overlay_phase.
  cbn [fst snd log_summary with_console console after_base with_set with_env log_read
       with_reads SET_VARIABLES].
  rewrite Hset, (Set_add_all_fresh (keys base) []) by exact Hnd.
  split; reflexivity.
Qed.

Lemma first_summary_lists_base_keys_witness :
  console (loadEnvSync (read_from files_base_only) parse_plain
             world_operator_log_level).2
  = ["Hydrated environment variables: DATABASE_URL, LOG_LEVEL"].
Proof.
  refine (proj2 (first_summary_lists_base_keys (read_from files_base_only) parse_plain
                   world_operator_log_level
                   [("DATABASE_URL", "postgres://localhost/myapp"); ("LOG_LEVEL", "info")]
                   _ _ _ _ _ (or_introl (conj eq_refl eq_refl)) _)).
  - reflexivity.
  - left. vm_compute. reflexivity.
  - by_computation.
  - vm_compute. reflexivity.
Defined.

(** X17: when the base load of the call returns and the overlay file then
    fails to load, the layered load throws the overlay's error after the
    base step is done and nothing is undone: every variable reads as the base
    export left it, all base keys are tracked, and no summary is logged.  The
    base load is [loadSync] for [loadEnvSync] and [load] for [mod]. *)
Theorem overlay_failure_keeps_base
    (read : filepath → error + string) (parse : string → error + Config)
    (w : world) (n : string) (base : Config) (e : error) :
  Deno_env w !! "NODE_ENV" = Some n →
  n ≠ "" →
  loadFile read parse (overlay_path n) = inl e →
  ∀ r0 r,
    (r0 = loadSync read parse (mkLoadOptions None (Some true)) w
     ∧ r = loadEnvSync read parse w)
    ∨ (r0 = load read parse (mkLoadOptions None (Some true)) w
       ∧ r = mod_ read parse w) →
    r0.1 = inr base →
    r.1 = inl e
    ∧ (∀ k, Deno_env r.2 !! k
            = match Deno_env w !! k with
              | Some V => Some V
              | None => conf_get base k
              end)
    ∧ (∀ k, k ∈ SET_VARIABLES r.2 ↔ k ∈ SET_VARIABLES w ∨ k ∈ keys base)
    ∧ console r.2 = console w.
Proof.
  intros Hn Hne Hoverlay r0 r Hr.
  assert (r0 = single read parse (mkLoadOptions None (Some true)) w
          ∧ r = layered read parse w) as [-> ->].
  { destruct Hr as [[-> ->] | [-> ->]].
    - rewrite loadSync_single, loadEnvSync_layered. split; reflexivity.
    - rewrite load_single, mod_layered. split; reflexivity. }
  intros Hbase.
  rewrite (layered_overlay_failure _ _ w n base e (indicator_Some w n Hn Hne)
             Hbase Hoverlay).
  split; [reflexivity|]. split; [|split; [|reflexivity]].
  - intros k. apply (after_base_env base w k).
  - intros k. apply (after_base_tracked base w k).
Qed.

Lemma overlay_failure_keeps_base_witness :
  (loadEnvSync (read_from [(".env", File "BASE=1"); (".env.development", Directory)])
     parse_plain world_readme).1
  = inl (OtherError "Error" "Is a directory (os error 21)").
Proof.
  refine (proj1 (overlay_failure_keeps_base
                   (read_from [(".env", File "BASE=1"); (".env.development", Directory)])
                   parse_plain world_readme "development" [("BASE", "1")]
                   (OtherError "Error" "Is a directory (os error 21)")
                   _ _ _ _ _ (or_introl (conj eq_refl eq_refl)) _)).
  - vm_compute. reflexivity.
  - discriminate.
  - vm_compute. reflexivity.
  - vm_compute. reflexivity.
Defined.

(** ** The auto-loading modules *)

Lemma load_ts_env (readTextFileSync : option (filepath → error + string))
    (parse : string → error + Config) (w : world) :
  Deno_env (world_after (load_ts readTextFileSync parse w)) = Deno_env w.
Proof.
  unfold load_ts. destruct readTextFileSync as [read|]; [|reflexivity].
  cbn [world_after]. rewrite loadSync_single. apply single_without_export. reflexivity.
Qed.



(** X15: the two auto-loaders differ on a key the environment lacks and only
    the base file has.  When the base load returns, after importing
    [load-env.ts] the variable holds the base file's value and is tracked;
    after importing the standard-compatible auto-loader it is still unset. *)
Theorem auto_loaders_differ
    (read : filepath → error + string) (parse : string → error + Config)
    (w : world) (base : Config) (K v : string) :
  (loadSync read parse (mkLoadOptions None (Some true)) w).1 = inr base →
  (∀ n overlay, indicator w = Some n →
     loadFile read parse (overlay_path n) = inr overlay → K ∉ keys overlay) →
  Deno_env w !! K = None →
  conf_get base K = Some v →
  Deno_env (world_after (load_env_ts (Some read) parse w)) !! K = Some v
  ∧ K ∈ SET_VARIABLES (world_after (load_env_ts (Some read) parse w))
  ∧ Deno_env (world_after (load_ts (Some read) parse w)) !! K = None.
Proof.
  rewrite loadSync_single. intros Hbase HK Hw Hv.
  rewrite load_ts_env. unfold load_env_ts. cbn [world_after].
  rewrite loadEnvSync_layered.
  destruct (layered_unmentioned read parse w base K Hbase HK) as [-> Hiff].
  rewrite Hw, Hv. split; [reflexivity|]. split; [|reflexivity].
  apply Hiff. right. eapply conf_get_Some_keys, Hv.
Qed.

Lemma auto_loaders_differ_witness :
  Deno_env (world_after (load_env_ts (Some (read_from files_base_only)) parse_plain
                           (process_start ∅))) !! "LOG_LEVEL" = Some "info"
  ∧ "LOG_LEVEL" ∈ SET_VARIABLES
                    (world_after (load_env_ts (Some (read_from files_base_only))
                                    parse_plain (process_start ∅)))
  ∧ Deno_env (world_after (load_ts (Some (read_from files_base_only)) parse_plain
                             (process_start ∅))) !! "LOG_LEVEL" = None.
Proof.
  apply (auto_loaders_differ (read_from files_base_only) parse_plain (process_start ∅)
           [("DATABASE_URL", "postgres://localhost/myapp"); ("LOG_LEVEL", "info")]).
  - vm_compute. reflexivity.
  - intros n overlay Hn. vm_compute in Hn. discriminate.
  - vm_compute. reflexivity.
  - vm_compute. reflexivity.
Defined.

(** ** The overlay test on values that are not empty *)

Lemma overlay_writes_false (k : string) (s : vars) (V : string) :
  k ∉ s.2 → s.1 !! k = Some V → V ≠ "" → overlay_writes k s = false.
Proof.
  intros Hk Hv HV. destruct (overlay_writes k s) eqn:H; [|reflexivity].
  apply overlay_writes_true in H as [H|[H|H]]; [contradiction | congruence | congruence].
Qed.

Lemma overlay_phase_skips read parse (nodeEnv : option string) (w1 : world) (K : string) :
  overlay_writes K (vars_of w1) = false →
  Deno_env (overlay_phase read parse nodeEnv w1).2 !! K = Deno_env w1 !! K.
Proof.
  intros HK. pose proof (overlay_phase_vars read parse nodeEnv w1) as H.
  destruct nodeEnv as [n|].
  - destruct (loadFile read parse (overlay_path n)) as [e|overlay].
    + destruct H as (_ & -> & _). reflexivity.
    + destruct H as (_ & -> & _).
      apply (overlay_run_skips overlay (vars_of w1) K HK).
  - destruct H as (_ & -> & _). reflexivity.
Qed.

Lemma layered_keeps_external read parse (w : world) (K V : string) :
  Deno_env w !! K = Some V →
  V ≠ "" →
  K ∉ SET_VARIABLES w →
  (∀ base, loadFile read parse base_path = inr base → K ∉ keys base) →
  Deno_env (layered read parse w).2 !! K = Some V.
Proof.
  intros HK HV Hset Hbase'.
  destruct (loadFile read parse base_path) as [e|base] eqn:Hbase.
  { rewrite (layered_base_failure _ _ w e Hbase). exact HK. }
  specialize (Hbase' base eq_refl).
  destruct (export_run base (Deno_env w)) as [[e|[]] env1] eqn:Hexport.
  { rewrite (layered_export_thrown _ _ w base e env1 Hbase Hexport).
    pose proof (export_run_present base (Deno_env w) K V HK) as Hp.
    rewrite Hexport in Hp. exact Hp. }
  rewrite (layered_exported _ _ w base env1 Hbase Hexport).
  assert (Hw1 : Deno_env (after_base base w) !! K = Some V).
  { rewrite after_base_env, HK. reflexivity. }
  rewrite overlay_phase_skips; [exact Hw1|].
  apply (overlay_writes_false K (vars_of (after_base base w)) V); [|exact Hw1 | exact HV].
  intros Hin. apply after_base_tracked in Hin as [Hin|Hin]; contradiction.
Qed.

(** X18: the overlay test on values that are not empty.  For a key that is
    tracked, or that the environment does not have, a turn of the overlay
    loop is the write: the variable gets the overlay's value and the key is
    tracked, or [Deno.env] refuses the pair and the turn throws with nothing
    changed.  For a key that is not tracked and has a non-empty value in the
    environment the turn changes nothing (and throws only for a name
    [Deno.env.get] refuses).  So a variable set from outside to a non-empty
    value, untracked and not named by the base file, still has its value
    after [loadEnvSync] and after [mod], whether they return or throw. *)
Theorem overlay_test_decides
    (read : filepath → error + string) (parse : string → error + Config) (w : world) :
  (∀ entry,
     (entry.1 ∈ SET_VARIABLES w ∨ Deno_env w !! entry.1 = None →
      overlay_entry entry w
      = match env_set_error entry.1 entry.2 with
        | Some e => (inl e, w)
        | None =>
            (inr tt, with_set (Set_add entry.1) (with_env <[entry.1 := entry.2]> w))
        end)
     ∧ ((entry.1 ∉ SET_VARIABLES w) →
        (∃ V, Deno_env w !! entry.1 = Some V ∧ V ≠ "") →
        overlay_entry entry w
        = match env_name_error entry.1 with
          | Some e => (inl e, w)
          | None => (inr tt, w)
          end))
  ∧ (∀ K V,
       Deno_env w !! K = Some V →
       V ≠ "" →
       K ∉ SET_VARIABLES w →
       (∀ base, loadFile read parse base_path = inr base → K ∉ keys base) →
       Deno_env (loadEnvSync read parse w).2 !! K = Some V
       ∧ Deno_env (mod_ read parse w).2 !! K = Some V).
Proof.
  split.
  - intros entry.
    rewrite overlay_entry_step. unfold overlay_step, vars_of, env_set_error.
    cbn [fst snd]. split.
    + intros H. destruct (Set_has entry.1 (SET_VARIABLES w)) eqn:Hhas.
      * destruct (env_name_error entry.1); destruct (env_value_error entry.2);
          destruct w; reflexivity.
      * destruct H as [H|H]; [apply Set_has_true in H; congruence|].
        rewrite H. cbn [truthy].
        destruct (env_name_error entry.1); destruct (env_value_error entry.2);
          destruct w; reflexivity.
    + intros Hout (V & HV & Hne).
      destruct (Set_has entry.1 (SET_VARIABLES w)) eqn:Hhas;
        [apply Set_has_true in Hhas; contradiction|].
      rewrite HV. cbn [truthy]. unfold truthy_string.
      case_decide; [contradiction|].
      destruct (env_name_error entry.1); destruct w; reflexivity.
  - intros K V HK HV Hset Hbase. rewrite loadEnvSync_layered, mod_layered.
    split; apply layered_keeps_external; assumption.
Qed.

Lemma overlay_test_decides_witness :
  Deno_env (loadEnvSync (read_from files_overlay_only) parse_plain world_external).2 !! "EXT"
  = Some "outside".
Proof.
  refine (proj1 (proj2 (overlay_test_decides (read_from files_overlay_only) parse_plain
                          world_external) "EXT" "outside" _ _ _ _)).
  - vm_compute. reflexivity.
  - discriminate.
  - vm_compute. apply not_elem_of_nil.
  - intros base [= <-]. apply not_elem_of_nil.
Defined.
